(** * Staking dashboard: a shallow embedding of the React components

    The development follows [src/components/AnimatedNumber.js] (the tween
    display widget) and the dashboard module that defines [App],
    [connectWallet], [StakingCard], [fetchData] and [handleTx].

    JavaScript numbers are IEEE-754 binary64 values ([spec_float] with
    precision 53 and maximal exponent 1024); strings are [string];
    on-chain amounts (bigint) are [Z].  The [useState] cells of a
    component are the fields of a record and each setter is an update of
    that record.  An [async] function is a tree of updates and awaits
    ([Async.Prog]); it runs either against a scripted world ([Async.exec])
    or inside the event loop of the mounted component
    ([StakingCard.step]), where it parks at each [await] until the
    world settles the promise.  The wallet, the provider, the contracts,
    the ECMAScript library and ethers are outside the repository: their
    calls are the requests of [External] and the functions of
    [JsGlobal] and [Ethers], written after their documented behaviour. *)

From Stdlib Require Import ZArith QArith Qminmax Qround Qabs.
From Stdlib Require Import List String Ascii Bool Lia Lqa.
From Stdlib Require Import SpecFloat DecimalString HexadecimalString.
Import ListNotations.

Local Open Scope Z_scope.

(** ** JavaScript numbers *)

Module JsNumber.

Definition number : Type := spec_float.

Definition NaN : number := S754_nan.
Definition pos_zero : number := S754_zero false.

(** [a <= b] on numbers: [false] as soon as one side is NaN, and
    [-0 <= +0]. *)
Definition le (a b : number) : bool := SFleb a b.

(** Quotient and doubled remainder of [n / (d * 2^e)]. *)
Definition scaled_div (n d e : Z) : Z * Z * Z :=
  let num := n * 2 ^ Z.max 0 (- e) in
  let den := d * 2 ^ Z.max 0 e in
  (num / den, 2 * (num mod den), den).

(** Round-to-nearest, ties-to-even, of the positive rational [n / d]
    (with [0 < n] and [0 < d]) to binary64. *)
Definition round_ratio (neg : bool) (n d : Z) : number :=
  let e1 := Z.max (Z.log2 n - Z.log2 d - 53) (-1074) in
  let '(q1, _, _) := scaled_div n d e1 in
  let e := if 2 ^ 53 <=? q1 then e1 + 1 else e1 in
  let '(q, r2, den) := scaled_div n d e in
  let q' :=
    match r2 ?= den with
    | Lt => q
    | Gt => q + 1
    | Eq => if Z.even q then q else q + 1
    end in
  let '(m, ex) := if q' =? 2 ^ 53 then (2 ^ 52, e + 1) else (q', e) in
  if m =? 0 then S754_zero neg
  else if 971 <? ex then S754_infinity neg
  else S754_finite neg (Z.to_pos m) ex.

(** The number denoted by the decimal numeral [m * 10^e], [0 <= m]:
    the rounding step of StringNumericValue. *)
Definition of_decimal (neg : bool) (m e : Z) : number :=
  if m =? 0 then S754_zero neg
  else if 0 <=? e then round_ratio neg (m * 10 ^ e) 1
  else round_ratio neg m (10 ^ (- e)).

End JsNumber.

(** ** Strings to numbers: the global [parseFloat] *)

Module JsGlobal.
Import JsNumber.
Local Open Scope string_scope.
Local Open Scope Z_scope.

(** White space and line terminators (the ASCII ones). *)
Definition is_white_space (c : ascii) : bool :=
  let n := N_of_ascii c in
  ((9 <=? n) && (n <=? 13) || (n =? 32))%N.

Fixpoint trim_start (s : string) : string :=
  match s with
  | String c rest => if is_white_space c then trim_start rest else s
  | EmptyString => s
  end.

Definition digit_of (c : ascii) : option Z :=
  let n := Z.of_N (N_of_ascii c) in
  if (48 <=? n) && (n <=? 57) then Some (n - 48) else None.

(** The longest run of decimal digits at the front of [s], most
    significant first, and what follows it. *)
Fixpoint take_digits (s : string) : list Z * string :=
  match s with
  | String c rest =>
      match digit_of c with
      | Some d => let '(ds, tl) := take_digits rest in (d :: ds, tl)
      | None => ([], s)
      end
  | EmptyString => ([], s)
  end.

Definition digits_value (ds : list Z) : Z :=
  fold_left (fun acc d => 10 * acc + d) ds 0.

(** ExponentPart, when one is present in full: [e] or [E], an optional
    sign and at least one digit.  Otherwise the literal stops before the
    [e] and the exponent is 0. *)
Definition exponent_part (s : string) : Z :=
  match s with
  | String c rest =>
      if (Ascii.eqb c "e" || Ascii.eqb c "E")%bool then
        let '(sgn, body) :=
          match rest with
          | String "+" r => (1, r)
          | String "-" r => (-1, r)
          | _ => (1, rest)
          end in
        match take_digits body with
        | ([], _) => 0
        | (ds, _) => sgn * digits_value ds
        end
      else 0
  | EmptyString => 0
  end.

(** StrUnsignedDecimalLiteral, longest prefix. *)
Definition unsigned_literal (neg : bool) (s : string) : number :=
  if prefix "Infinity" s then S754_infinity neg
  else
    let '(ip, r1) := take_digits s in
    match r1 with
    | String "." r2 =>
        let '(fp, r3) := take_digits r2 in
        match ip, fp with
        | [], [] => NaN
        | _, _ =>
            of_decimal neg (digits_value (ip ++ fp))
              (exponent_part r3 - Z.of_nat (List.length fp))
        end
    | _ =>
        match ip with
        | [] => NaN
        | _ => of_decimal neg (digits_value ip) (exponent_part r1)
        end
    end.

(** [parseFloat(string)]: leading white space is skipped, the longest
    prefix that is a StrDecimalLiteral is converted, anything after it
    is ignored, and NaN is returned when there is no such prefix. *)
Definition parseFloat (s : string) : number :=
  match trim_start s with
  | String "+" r => unsigned_literal false r
  | String "-" r => unsigned_literal true r
  | t => unsigned_literal false t
  end.

(** JavaScript truthiness of a string: only the empty string is falsy. *)
Definition truthy (s : string) : bool :=
  match s with EmptyString => false | _ => true end.

End JsGlobal.

(** ** Exceptions and settled promises *)

Module Js.
Local Open Scope string_scope.
Local Open Scope Z_scope.

(** The [code] property of an error object: absent, a number (wallet
    RPC errors) or a string (ethers errors). *)
Inductive ErrorCode : Type :=
| NoCode
| NumCode (n : Z)
| StrCode (s : string).

(** The properties of a thrown error that the dashboard reads. *)
Record JsError : Type := mkError {
  err_message : string;
  err_code : ErrorCode;
  err_reason : option string
}.

(** [new Error(msg)]. *)
Definition new_Error (msg : string) : JsError :=
  {| err_message := msg; err_code := NoCode; err_reason := None |}.

(** The [TypeError] raised by a method call on [null]. *)
Definition null_deref (method : string) : JsError :=
  new_Error
    ("Cannot read properties of null (reading '" ++ method ++ "')")%string.

(** [e.code === n] for a number [n]. *)
Definition code_is (e : JsError) (n : Z) : bool :=
  match err_code e with
  | NumCode m => m =? n
  | _ => false
  end.

(** [e.reason || fallback]: an absent or empty reason is falsy. *)
Definition reason_or (e : JsError) (fallback : string) : string :=
  match err_reason e with
  | Some r => if JsGlobal.truthy r then r else fallback
  | None => fallback
  end.

(** A settled promise, or the outcome of a call that may throw. *)
Inductive Result (A : Type) : Type :=
| Ok (a : A)
| Err (e : JsError).
Arguments Ok {A} a.
Arguments Err {A} e.

Definition is_ok {A} (r : Result A) : bool :=
  match r with Ok _ => true | Err _ => false end.

(** [Promise.all]: fulfilled with every value when every promise is
    fulfilled, rejected with the reason of a rejected one otherwise. *)
Fixpoint promise_all {A} (rs : list (Result A)) : Result (list A) :=
  match rs with
  | [] => Ok []
  | Err e :: _ => Err e
  | Ok a :: rest =>
      match promise_all rest with
      | Ok vs => Ok (a :: vs)
      | Err e => Err e
      end
  end.

End Js.

(** ** The ethers helpers the dashboard calls *)

Module Ethers.
Import Js JsGlobal.
Local Open Scope string_scope.
Local Open Scope Z_scope.

Definition invalid_argument (msg : string) : JsError :=
  {| err_message := msg; err_code := StrCode "INVALID_ARGUMENT";
     err_reason := None |}.

Definition numeric_fault (msg : string) : JsError :=
  {| err_message := msg; err_code := StrCode "NUMERIC_FAULT";
     err_reason := None |}.

(** [ethers.parseUnits(value, decimals)]: [value] must read
    [-?digits.?digits] with at least one digit; fractional digits after
    the first [decimals] must all be 0; the scaled integer must fit a
    signed 512-bit fixed number. *)
Definition parseUnits (value : string) (decimals : nat) : Result Z :=
  let '(neg, body) :=
    match value with
    | String "-" r => (true, r)
    | _ => (false, value)
    end in
  let '(whole, r1) := take_digits body in
  let '(frac, r2) :=
    match r1 with
    | String "." r => take_digits r
    | _ => ([], r1)
    end in
  if truthy r2 || (List.length whole + List.length frac =? 0)%nat then
    Err (invalid_argument "invalid FixedNumber string value")
  else if existsb (fun d => negb (d =? 0)) (skipn decimals frac) then
    Err (numeric_fault "too many decimals for format")
  else
    let padded := firstn decimals (frac ++ repeat 0 decimals) in
    let v := digits_value (whole ++ padded) in
    let v := if neg then - v else v in
    if (- 2 ^ 511 <=? v) && (v <? 2 ^ 511) then Ok v
    else Err (numeric_fault "overflow").

Definition decimal_string (n : Z) : string :=
  DecimalString.NilZero.string_of_uint (N.to_uint (Z.to_N n)).

Fixpoint pad_left (width : nat) (s : string) : string :=
  match width with
  | O => s
  | S w => if (String.length s <? S w)%nat then String "0" (pad_left w s)
           else s
  end.

(** Drops trailing zeros of a fraction, keeping one digit at least. *)
Fixpoint trim_fraction (s : string) : string :=
  match s with
  | String c rest =>
      match trim_fraction rest with
      | "0" => String c ""
      | t => String c t
      end
  | EmptyString => "0"
  end.

(** [ethers.formatUnits(value, decimals)] with [0 < decimals]: the
    decimal expansion of [value / 10^decimals], with one integer digit
    and one fractional digit at least. *)
Definition formatUnits (value : Z) (decimals : nat) : string :=
  let scale := 10 ^ Z.of_nat decimals in
  let a := Z.abs value in
  let whole := decimal_string (a / scale) in
  let frac := pad_left decimals (decimal_string (a mod scale)) in
  let sign := if value <? 0 then "-" else "" in
  (sign ++ whole ++ "." ++ trim_fraction frac)%string.

(** [ethers.toQuantity(n)]: the 0x-prefixed hexadecimal numeral without
    leading zeros. *)
Definition toQuantity (n : Z) : string :=
  ("0x" ++ HexadecimalString.NilZero.string_of_uint
             (N.to_hex_uint (Z.to_N n)))%string.

(** A signer of the wallet's provider. *)
Record Signer : Type := { signer_id : nat }.

(** [new ethers.Contract(address, abi, signer)]. *)
Record Contract : Type := {
  contract_address : string;
  contract_signer : Signer
}.

End Ethers.

(** ** The external collaborators: wallet, provider and the two contracts *)

Module External.
Import Js Ethers.

(** The pending-transaction handle a write call resolves to. *)
Definition TxHandle : Type := nat.

Record NativeCurrency : Type := {
  name : string;
  symbol : string;
  decimals : Z
}.

Record NetworkConfig : Type := {
  chainId : string;
  chainName : string;
  nativeCurrency : NativeCurrency;
  rpcUrls : list string
}.

(** Read-only contract queries. *)
Inductive Query : Type :=
| BalanceOf (token : Contract) (owner : string)
| StakedBalance (pool : Contract) (owner : string)
| Earned (pool : Contract) (owner : string)
| TotalStaked (pool : Contract).

(** Every operation whose promise the dashboard awaits. *)
Inductive Request : Type :=
| Enable (appName : string)
| GetNetwork
| SwitchEthereumChain (chain : string)
| AddEthereumChain (cfg : NetworkConfig)
| GetSigner
| GetAddress (s : Signer)
| Approve (token : Contract) (spender : string) (amount : Z)
| Stake (pool : Contract) (amount : Z)
| Withdraw (pool : Contract) (amount : Z)
| ClaimReward (pool : Contract)
| Wait (tx : TxHandle)
| Read (q : Query).

(** What a fulfilled promise of each operation carries. *)
Definition resp (r : Request) : Type :=
  match r with
  | Enable _ => unit
  | GetNetwork => Z
  | SwitchEthereumChain _ => unit
  | AddEthereumChain _ => unit
  | GetSigner => Signer
  | GetAddress _ => string
  | Approve _ _ _ => TxHandle
  | Stake _ _ => TxHandle
  | Withdraw _ _ => TxHandle
  | ClaimReward _ => TxHandle
  | Wait _ => unit
  | Read _ => Z
  end.

(** One round of the outside world: how it settles whichever operation
    is pending. *)
Definition Answer : Type := forall r : Request, Result (resp r).

(** How an answer settles a read-only query. *)
Definition read_answer (a : Answer) (q : Query) : Result Z := a (Read q).

(** What an observer of the boundary sees. *)
Inductive Event : Type :=
| Issue (r : Request)
| Settle (r : Request) (ok : bool).

End External.

(** ** Asynchronous functions

    An [async] function is a tree: state updates run at once, an [await]
    parks the function until the outside world settles the promise, and
    [throw] unwinds to the nearest [try]. *)

Module Async.
Import Js External.

Inductive Prog (U A : Type) : Type :=
| Ret (a : A)
| Throw (e : JsError)
| Update (u : U) (k : Prog U A)
| Await (r : Request) (k : Result (resp r) -> Prog U A)
| AwaitAll (qs : list Query) (k : list (Result Z) -> Prog U A).
Arguments Ret {U A} a.
Arguments Throw {U A} e.
Arguments Update {U A} u k.
Arguments Await {U A} r k.
Arguments AwaitAll {U A} qs k.

Fixpoint bind {U A B} (p : Prog U A) (f : A -> Prog U B) : Prog U B :=
  match p with
  | Ret a => f a
  | Throw e => Throw e
  | Update u k => Update u (bind k f)
  | Await r k => Await r (fun x => bind (k x) f)
  | AwaitAll qs k => AwaitAll qs (fun x => bind (k x) f)
  end.

(** [try { p } catch (e) { h e }]. *)
Fixpoint try_catch {U A} (p : Prog U A) (h : JsError -> Prog U A)
  : Prog U A :=
  match p with
  | Ret a => Ret a
  | Throw e => h e
  | Update u k => Update u (try_catch k h)
  | Await r k => Await r (fun x => try_catch (k x) h)
  | AwaitAll qs k => AwaitAll qs (fun x => try_catch (k x) h)
  end.

(** [try { p } finally { fin }]. *)
Fixpoint finally {U A} (p : Prog U A) (fin : Prog U unit) : Prog U A :=
  match p with
  | Ret a => bind fin (fun _ => Ret a)
  | Throw e => bind fin (fun _ => Throw e)
  | Update u k => Update u (finally k fin)
  | Await r k => Await r (fun x => finally (k x) fin)
  | AwaitAll qs k => AwaitAll qs (fun x => finally (k x) fin)
  end.

(** [await r]: the value of a fulfilled promise, or the rejection
    rethrown. *)
Definition await {U} (r : Request) : Prog U (resp r) :=
  Await r (fun x => match x with Ok v => Ret v | Err e => Throw e end).

(** [await Promise.all(qs)]. *)
Definition await_all {U} (qs : list Query) : Prog U (list Z) :=
  AwaitAll qs (fun xs =>
    match promise_all xs with Ok vs => Ret vs | Err e => Throw e end).

(** [throw_if c e]: [if (c) throw e]. *)
Definition throw_if {U} (c : bool) (e : JsError) : Prog U unit :=
  if c then Throw e else Ret tt.

(** A function parked at an [await]. *)
Inductive Pending (U A : Type) : Type :=
| PendReq (r : Request) (k : Result (resp r) -> Prog U A)
| PendAll (qs : list Query) (k : list (Result Z) -> Prog U A).
Arguments PendReq {U A} r k.
Arguments PendAll {U A} qs k.

Inductive Outcome (U A : Type) : Type :=
| Done (r : Result A)
| Parked (p : Pending U A).
Arguments Done {U A} r.
Arguments Parked {U A} p.

(** The operations a parked function has outstanding. *)
Definition outstanding {U A} (p : Pending U A) : list Request :=
  match p with
  | PendReq r _ => [r]
  | PendAll qs _ => map Read qs
  end.

(** The function's continuation once the world has answered. *)
Definition resume {U A} (p : Pending U A) (a : Answer) : Prog U A :=
  match p with
  | PendReq r k => k (a r)
  | PendAll qs k => k (map (read_answer a) qs)
  end.

Definition settled {U A} (p : Pending U A) (a : Answer) : list Event :=
  map (fun r => Settle r (is_ok (a r))) (outstanding p).

Section Run.
Context {U St A : Type}.
Variable apply : U -> St -> St.

(** Run to completion or to the next [await], whichever comes
    first. *)
Fixpoint run (p : Prog U A) (s : St) : St * Outcome U A :=
  match p with
  | Ret a => (s, Done (Ok a))
  | Throw e => (s, Done (Err e))
  | Update u k => run k (apply u s)
  | Await r k => (s, Parked (PendReq r k))
  | AwaitAll qs k => (s, Parked (PendAll qs k))
  end.

(** Run to completion against a scripted world: the [n]-th await is
    settled by the [n]-th answer.  The result carries the final state,
    the boundary events in order and the function's own outcome. *)
Fixpoint exec (p : Prog U A) (world : nat -> Answer) (n : nat) (s : St)
  : St * list Event * Result A :=
  match p with
  | Ret a => (s, [], Ok a)
  | Throw e => (s, [], Err e)
  | Update u k => exec k world n (apply u s)
  | Await r k =>
      let pend := PendReq r k in
      let '(s', tr, res) := exec (k (world n r)) world (S n) s in
      (s', map Issue (outstanding pend) ++ settled pend (world n) ++ tr,
       res)
  | AwaitAll qs k =>
      let pend := PendAll qs k in
      let '(s', tr, res) :=
        exec (k (map (read_answer (world n)) qs)) world (S n) s in
      (s', map Issue (outstanding pend) ++ settled pend (world n) ++ tr,
       res)
  end.
End Run.

Declare Scope prog_scope.
Delimit Scope prog_scope with prog.
Notation "x <- p ;; k" := (bind p (fun x => k))
  (at level 61, p at next level, right associativity) : prog_scope.
Notation "p ;; k" := (bind p (fun _ => k))
  (at level 61, right associativity) : prog_scope.

End Async.

(** ** constants.js *)

Module Constants.
Local Open Scope string_scope.

Definition INZO_STAKE_ADDRESS : string :=
  "0x4c26a70c7d3A185f8f43570567C4bE84113765D9".

Definition INZO_USD_ADDRESS : string :=
  "0xb9AF6E2F6BFc8F9556D3f4867DFD813bB4882d38".

End Constants.

(** ** The status line shared by [App] and [StakingCard] *)

Module Panel.
Local Open Scope string_scope.

(** The [{ message, type }] objects held in the [status] state. *)
Record Status : Type := {
  message : string;
  type : string
}.

(** [{ message: "", type: "" }], the idle status: nothing is shown. *)
Definition idle : Status := {| message := ""; type := "" |}.

Definition info (msg : string) : Status :=
  {| message := msg; type := "info" |}.

Definition success (msg : string) : Status :=
  {| message := msg; type := "success" |}.

Definition error (msg : string) : Status :=
  {| message := msg; type := "error" |}.

End Panel.

(** ** StakingCard *)

Module StakingCard.
Import JsNumber JsGlobal Js Ethers External Async Constants Panel.
Local Open Scope string_scope.
Local Open Scope Z_scope.
Local Open Scope prog_scope.

(** The component's [useState] cells. *)
Record State : Type := {
  inzoStakeContract : option Contract;
  inzoUSDContract : option Contract;
  inzoUSDBalance : number;
  stakedBalance : number;
  earnedRewards : number;
  stakeAmount : string;
  withdrawAmount : string;
  loading : bool;
  status : Status
}.

(** The state setters, and [setTimeout] with the setter it will run. *)
Inductive Effect : Type :=
| SetInzoStakeContract (c : Contract)
| SetInzoUSDContract (c : Contract)
| SetInzoUSDBalance (n : number)
| SetStakedBalance (n : number)
| SetEarnedRewards (n : number)
| SetStakeAmount (s : string)
| SetWithdrawAmount (s : string)
| SetLoading (b : bool)
| SetStatus (s : Status)
| SetTimeout (callback : Effect) (delay : Z).

(** The component's state together with its pending timeouts (due time
    and callback, oldest first) and the clock, in milliseconds. *)
Record Ui : Type := {
  state : State;
  timers : list (Z * Effect);
  clock : Z
}.

Definition update (u : Effect) (s : State) : State :=
  match u with
  | SetInzoStakeContract c =>
      {| inzoStakeContract := Some c; inzoUSDContract := inzoUSDContract s;
         inzoUSDBalance := inzoUSDBalance s; stakedBalance := stakedBalance s;
         earnedRewards := earnedRewards s; stakeAmount := stakeAmount s;
         withdrawAmount := withdrawAmount s; loading := loading s;
         status := status s |}
  | SetInzoUSDContract c =>
      {| inzoStakeContract := inzoStakeContract s; inzoUSDContract := Some c;
         inzoUSDBalance := inzoUSDBalance s; stakedBalance := stakedBalance s;
         earnedRewards := earnedRewards s; stakeAmount := stakeAmount s;
         withdrawAmount := withdrawAmount s; loading := loading s;
         status := status s |}
  | SetInzoUSDBalance n =>
      {| inzoStakeContract := inzoStakeContract s;
         inzoUSDContract := inzoUSDContract s;
         inzoUSDBalance := n; stakedBalance := stakedBalance s;
         earnedRewards := earnedRewards s; stakeAmount := stakeAmount s;
         withdrawAmount := withdrawAmount s; loading := loading s;
         status := status s |}
  | SetStakedBalance n =>
      {| inzoStakeContract := inzoStakeContract s;
         inzoUSDContract := inzoUSDContract s;
         inzoUSDBalance := inzoUSDBalance s; stakedBalance := n;
         earnedRewards := earnedRewards s; stakeAmount := stakeAmount s;
         withdrawAmount := withdrawAmount s; loading := loading s;
         status := status s |}
  | SetEarnedRewards n =>
      {| inzoStakeContract := inzoStakeContract s;
         inzoUSDContract := inzoUSDContract s;
         inzoUSDBalance := inzoUSDBalance s; stakedBalance := stakedBalance s;
         earnedRewards := n; stakeAmount := stakeAmount s;
         withdrawAmount := withdrawAmount s; loading := loading s;
         status := status s |}
  | SetStakeAmount a =>
      {| inzoStakeContract := inzoStakeContract s;
         inzoUSDContract := inzoUSDContract s;
         inzoUSDBalance := inzoUSDBalance s; stakedBalance := stakedBalance s;
         earnedRewards := earnedRewards s; stakeAmount := a;
         withdrawAmount := withdrawAmount s; loading := loading s;
         status := status s |}
  | SetWithdrawAmount a =>
      {| inzoStakeContract := inzoStakeContract s;
         inzoUSDContract := inzoUSDContract s;
         inzoUSDBalance := inzoUSDBalance s; stakedBalance := stakedBalance s;
         earnedRewards := earnedRewards s; stakeAmount := stakeAmount s;
         withdrawAmount := a; loading := loading s;
         status := status s |}
  | SetLoading b =>
      {| inzoStakeContract := inzoStakeContract s;
         inzoUSDContract := inzoUSDContract s;
         inzoUSDBalance := inzoUSDBalance s; stakedBalance := stakedBalance s;
         earnedRewards := earnedRewards s; stakeAmount := stakeAmount s;
         withdrawAmount := withdrawAmount s; loading := b;
         status := status s |}
  | SetStatus st =>
      {| inzoStakeContract := inzoStakeContract s;
         inzoUSDContract := inzoUSDContract s;
         inzoUSDBalance := inzoUSDBalance s; stakedBalance := stakedBalance s;
         earnedRewards := earnedRewards s; stakeAmount := stakeAmount s;
         withdrawAmount := withdrawAmount s; loading := loading s;
         status := st |}
  | SetTimeout _ _ => s
  end.

Definition apply (u : Effect) (v : Ui) : Ui :=
  match u with
  | SetTimeout callback delay =>
      {| state := state v;
         timers := timers v ++ [(clock v + delay, callback)];
         clock := clock v |}
  | _ =>
      {| state := update u (state v); timers := timers v;
         clock := clock v |}
  end.

Definition setInzoStakeContract c : Prog Effect unit :=
  Update (SetInzoStakeContract c) (Ret tt).
Definition setInzoUSDContract c : Prog Effect unit :=
  Update (SetInzoUSDContract c) (Ret tt).
Definition setInzoUSDBalance n : Prog Effect unit :=
  Update (SetInzoUSDBalance n) (Ret tt).
Definition setStakedBalance n : Prog Effect unit :=
  Update (SetStakedBalance n) (Ret tt).
Definition setEarnedRewards n : Prog Effect unit :=
  Update (SetEarnedRewards n) (Ret tt).
Definition setStakeAmount s : Prog Effect unit :=
  Update (SetStakeAmount s) (Ret tt).
Definition setWithdrawAmount s : Prog Effect unit :=
  Update (SetWithdrawAmount s) (Ret tt).
Definition setLoading b : Prog Effect unit :=
  Update (SetLoading b) (Ret tt).
Definition setStatus s : Prog Effect unit :=
  Update (SetStatus s) (Ret tt).
Definition setTimeout callback delay : Prog Effect unit :=
  Update (SetTimeout callback delay) (Ret tt).

(** [parseFloat(ethers.formatUnits(x, 18))]: an on-chain amount as a
    display number. *)
Definition to_display (x : Z) : number := parseFloat (formatUnits x 18).

(** A method call on a contract cell: [null] has no methods. *)
Definition deref (c : option Contract) (method : string)
  : Prog Effect Contract :=
  match c with
  | Some k => Ret k
  | None => Throw (null_deref method)
  end.

(** The effect run once on mount: build both contracts from the wallet's
    signer. *)
Definition init (talismanEth : bool) : Prog Effect unit :=
  if talismanEth then
    signer <- await GetSigner ;;
    setInzoStakeContract
      {| contract_address := INZO_STAKE_ADDRESS;
         contract_signer := signer |} ;;
    setInzoUSDContract
      {| contract_address := INZO_USD_ADDRESS; contract_signer := signer |}
  else Ret tt.

(** One read cycle.  The three queries are issued together and joined
    with [Promise.all]; the setters run only after the join. *)
Definition fetchData (userAddress : string)
    (inzoStakeContract inzoUSDContract : option Contract)
  : Prog Effect unit :=
  match truthy userAddress, inzoStakeContract, inzoUSDContract with
  | true, Some pool, Some token =>
      try_catch
        (vs <- await_all [BalanceOf token userAddress;
                          StakedBalance pool userAddress;
                          Earned pool userAddress] ;;
         match vs with
         | [usdBalance; staked; earned] =>
             setInzoUSDBalance (to_display usdBalance) ;;
             setStakedBalance (to_display staked) ;;
             setEarnedRewards (to_display earned)
         | _ => Ret tt
         end)
        (fun _ => Ret tt)
  | _, _, _ => Ret tt
  end.

(** The three actions [handleTx] is called with. *)
Inductive Action : Type := stake | withdraw | claim.

Definition is_claim (a : Action) : bool :=
  match a with claim => true | _ => false end.

(** [{ message: `Failed: ${error.reason || "Check console"}`,
       type: "error" }]. *)
Definition error_status (e : JsError) : Status :=
  error ("Failed: " ++ reason_or e "Check console").

(** A call that returns or throws, as a statement. *)
Definition lift {A} (r : Result A) : Prog Effect A :=
  match r with Ok a => Ret a | Err e => Throw e end.

(** The guard at the head of the [try] block:
    [action !== 'claim' && (!amountStr || parseFloat(amountStr) <= 0)]. *)
Definition invalid_amount (action : Action) (amountStr : string) : bool :=
  negb (is_claim action)
  && (negb (truthy amountStr) || le (parseFloat amountStr) pos_zero).

(** The [try] block of [handleTx]. *)
Definition attempt (userAddress : string)
    (inzoStakeContract inzoUSDContract : option Contract)
    (action : Action) (amountStr successMsg : string)
  : Prog Effect unit :=
  throw_if (invalid_amount action amountStr) (new_Error "Invalid amount") ;;
  amount <- (if negb (is_claim action)
             then lift (parseUnits amountStr 18)
             else Ret 0) ;;
  match action with
  | stake =>
      setStatus (info "Approving...") ;;
      token <- deref inzoUSDContract "approve" ;;
      tx <- await (Approve token INZO_STAKE_ADDRESS amount) ;;
      await (Wait tx) ;;
      setStatus (info "Staking...") ;;
      pool <- deref inzoStakeContract "stake" ;;
      tx <- await (Stake pool amount) ;;
      await (Wait tx)
  | withdraw =>
      pool <- deref inzoStakeContract "withdraw" ;;
      tx <- await (Withdraw pool amount) ;;
      await (Wait tx)
  | claim =>
      pool <- deref inzoStakeContract "claimReward" ;;
      tx <- await (ClaimReward pool) ;;
      await (Wait tx)
  end ;;
  setStatus (success successMsg) ;;
  setTimeout (SetStatus idle) 3000 ;;
  setStakeAmount "" ;;
  setWithdrawAmount "" ;;
  fetchData userAddress inzoStakeContract inzoUSDContract.

Definition handleTx (userAddress : string)
    (inzoStakeContract inzoUSDContract : option Contract)
    (action : Action) (amountStr successMsg : string)
  : Prog Effect unit :=
  setLoading true ;;
  setStatus (info "Preparing transaction...") ;;
  try_catch
    (attempt userAddress inzoStakeContract inzoUSDContract action
       amountStr successMsg)
    (fun error => setStatus (error_status error)) ;;
  setLoading false.

(** *** The mounted component and its event loop *)

(** Which function a parked continuation belongs to. *)
Inductive Origin : Type := WriteAction | ReadCycle | Setup.

Record Task : Type := {
  origin : Origin;
  pending : Pending Effect unit
}.

(** A mounted card: its prop, its state and timers, the asynchronous
    functions parked at an [await], and the boundary events so far. *)
Record Card : Type := {
  userAddress : string;
  ui : Ui;
  tasks : list Task;
  trace : list Event
}.

(** Calling an asynchronous function: it runs up to its first [await]
    and, if it parks there, joins the parked tasks. *)
Definition spawn (o : Origin) (p : Prog Effect unit) (c : Card) : Card :=
  match run apply p (ui c) with
  | (v, Done _) =>
      {| userAddress := userAddress c; ui := v; tasks := tasks c;
         trace := trace c |}
  | (v, Parked pend) =>
      {| userAddress := userAddress c; ui := v;
         tasks := tasks c ++ [{| origin := o; pending := pend |}];
         trace := trace c ++ map Issue (outstanding pend) |}
  end.

(** The [fetchData] of the current render. *)
Definition fetchData_now (c : Card) : Prog Effect unit :=
  fetchData (userAddress c) (inzoStakeContract (state (ui c)))
    (inzoUSDContract (state (ui c))).

(** The [handleTx] of the current render. *)
Definition handleTx_now (c : Card) (action : Action)
    (amountStr successMsg : string) : Prog Effect unit :=
  handleTx (userAddress c) (inzoStakeContract (state (ui c)))
    (inzoUSDContract (state (ui c))) action amountStr successMsg.

(** [disabled={!stakeAmount || loading}] *)
Definition stake_disabled (s : State) : bool :=
  negb (truthy (stakeAmount s)) || loading s.

(** [disabled={!withdrawAmount || loading}] *)
Definition withdraw_disabled (s : State) : bool :=
  negb (truthy (withdrawAmount s)) || loading s.

(** The number literal [0.000001]. *)
Definition claim_threshold : number := of_decimal false 1 (-6).

(** [disabled={earnedRewards <= 0.000001 || loading}] *)
Definition claim_disabled (s : State) : bool :=
  le (earnedRewards s) claim_threshold || loading s.

Definition initial_state : State :=
  {| inzoStakeContract := None; inzoUSDContract := None;
     inzoUSDBalance := pos_zero; stakedBalance := pos_zero;
     earnedRewards := pos_zero; stakeAmount := ""; withdrawAmount := "";
     loading := false; status := idle |}.

(** First render and its effects, in declaration order: [init()], then
    [fetchData()]. *)
Definition mount (address : string) (talismanEth : bool) : Card :=
  let c := {| userAddress := address;
              ui := {| state := initial_state; timers := []; clock := 0 |};
              tasks := []; trace := [] |} in
  let c := spawn Setup (init talismanEth) c in
  spawn ReadCycle (fetchData_now c) c.

(** What can happen to a mounted card. *)
Inductive UiEvent : Type :=
| ChangeStake (value : string)
| ChangeWithdraw (value : string)
| ClickStake
| ClickWithdraw
| ClickClaim
| Settled (i : nat) (a : Answer)
| IntervalTick
| Elapse (ms : Z).

Definition with_ui (c : Card) (v : Ui) : Card :=
  {| userAddress := userAddress c; ui := v; tasks := tasks c;
     trace := trace c |}.

Fixpoint remove_nth {A} (i : nat) (l : list A) : list A :=
  match i, l with
  | _, [] => []
  | O, _ :: tl => tl
  | S j, x :: tl => x :: remove_nth j tl
  end.

(** The clock advances by [ms]; every timeout due by then runs, oldest
    first, and is dropped. *)
Definition elapse (ms : Z) (v : Ui) : Ui :=
  let t := clock v + Z.max 0 ms in
  let '(due, later) := partition (fun d => fst d <=? t) (timers v) in
  fold_left (fun w d => apply (snd d) w) due
    {| state := state v; timers := later; clock := t |}.

Definition handle (ev : UiEvent) (c : Card) : Card :=
  match ev with
  | ChangeStake value => with_ui c (apply (SetStakeAmount value) (ui c))
  | ChangeWithdraw value =>
      with_ui c (apply (SetWithdrawAmount value) (ui c))
  | ClickStake =>
      if stake_disabled (state (ui c)) then c
      else spawn WriteAction
             (handleTx_now c stake (stakeAmount (state (ui c)))
                "Staked successfully!") c
  | ClickWithdraw =>
      if withdraw_disabled (state (ui c)) then c
      else spawn WriteAction
             (handleTx_now c withdraw (withdrawAmount (state (ui c)))
                "Withdrawn successfully!") c
  | ClickClaim =>
      if claim_disabled (state (ui c)) then c
      else spawn WriteAction
             (handleTx_now c claim "0" "Rewards claimed!") c
  | Settled i a =>
      match nth_error (tasks c) i with
      | Some t =>
          spawn (origin t) (resume (pending t) a)
            {| userAddress := userAddress c; ui := ui c;
               tasks := remove_nth i (tasks c);
               trace := trace c ++ settled (pending t) a |}
      | None => c
      end
  | IntervalTick => spawn ReadCycle (fetchData_now c) c
  | Elapse ms => with_ui c (elapse ms (ui c))
  end.

Definition contract_eqb (a b : option Contract) : bool :=
  match a, b with
  | None, None => true
  | Some x, Some y =>
      (contract_address x =? contract_address y)%string
      && (signer_id (contract_signer x) =? signer_id (contract_signer y))%nat
  | _, _ => false
  end.

(** [useCallback] gives a new [fetchData] when a contract cell changed,
    and the effect that depends on it then calls it at once. *)
Definition rerender (before after : Card) : Card :=
  if contract_eqb (inzoStakeContract (state (ui before)))
       (inzoStakeContract (state (ui after)))
     && contract_eqb (inzoUSDContract (state (ui before)))
          (inzoUSDContract (state (ui after)))
  then after
  else spawn ReadCycle (fetchData_now after) after.

Definition step (c : Card) (ev : UiEvent) : Card :=
  rerender c (handle ev c).

Definition steps (c : Card) (evs : list UiEvent) : Card :=
  fold_left step evs c.

(** The write-action sequences in flight. *)
Definition is_write_task (t : Task) : bool :=
  match origin t with WriteAction => true | _ => false end.

Definition in_flight (c : Card) : nat :=
  List.length (filter is_write_task (tasks c)).

End StakingCard.

(** ** App: wallet connection and the TVL poll *)

Module App.
Import JsNumber JsGlobal Js Ethers External Async Constants Panel.
Local Open Scope string_scope.
Local Open Scope Z_scope.
Local Open Scope prog_scope.

Definition CORRECT_CHAIN_ID : Z := 420420421.

Definition networkConfig : NetworkConfig :=
  {| chainId := toQuantity CORRECT_CHAIN_ID;
     chainName := "Westend Asset Hub";
     nativeCurrency :=
       {| name := "Westend"; symbol := "WND"; decimals := 18 |};
     rpcUrls := ["https://westend-asset-hub-eth-rpc.polkadot.io/"] |}.

Record State : Type := {
  userAddress : option string;
  inzoStakeContract : option Contract;
  loading : bool;
  status : Status;
  tvl : number
}.

Inductive Effect : Type :=
| SetUserAddress (a : string)
| SetInzoStakeContract (c : Contract)
| SetLoading (b : bool)
| SetStatus (s : Status)
| SetTvl (n : number).

Definition apply (u : Effect) (s : State) : State :=
  match u with
  | SetUserAddress a =>
      {| userAddress := Some a; inzoStakeContract := inzoStakeContract s;
         loading := loading s; status := status s; tvl := tvl s |}
  | SetInzoStakeContract c =>
      {| userAddress := userAddress s; inzoStakeContract := Some c;
         loading := loading s; status := status s; tvl := tvl s |}
  | SetLoading b =>
      {| userAddress := userAddress s;
         inzoStakeContract := inzoStakeContract s;
         loading := b; status := status s; tvl := tvl s |}
  | SetStatus st =>
      {| userAddress := userAddress s;
         inzoStakeContract := inzoStakeContract s;
         loading := loading s; status := st; tvl := tvl s |}
  | SetTvl n =>
      {| userAddress := userAddress s;
         inzoStakeContract := inzoStakeContract s;
         loading := loading s; status := status s; tvl := n |}
  end.

Definition initial_state : State :=
  {| userAddress := None; inzoStakeContract := None; loading := false;
     status := idle; tvl := pos_zero |}.

Definition setUserAddress a : Prog Effect unit :=
  Update (SetUserAddress a) (Ret tt).
Definition setInzoStakeContract c : Prog Effect unit :=
  Update (SetInzoStakeContract c) (Ret tt).
Definition setLoading b : Prog Effect unit :=
  Update (SetLoading b) (Ret tt).
Definition setStatus s : Prog Effect unit :=
  Update (SetStatus s) (Ret tt).
Definition setTvl n : Prog Effect unit :=
  Update (SetTvl n) (Ret tt).

(** The network step of [connectWallet]: ask the wallet to switch to the
    target chain; when it answers that the chain is unknown (code 4902),
    ask it to add the chain; on any other refusal give up. *)
Definition switch_network : Prog Effect unit :=
  setStatus (info "Switching network...") ;;
  try_catch
    (await (SwitchEthereumChain (chainId networkConfig)))
    (fun switchError =>
       if code_is switchError 4902
       then await (AddEthereumChain networkConfig)
       else Throw (new_Error "User rejected network switch.")).

(** [connectWallet], given the extension names [getWallets()] reports
    and whether [window.talismanEth] is there once the wallet is
    enabled. *)
Definition connectWallet (wallets : list string) (talismanEth : bool)
  : Prog Effect unit :=
  setLoading true ;;
  setStatus (info "Connecting...") ;;
  finally
    (try_catch
       (throw_if (negb (existsb (String.eqb "talisman") wallets))
          (new_Error "Talisman wallet not found. Please install it.") ;;
        await (Enable "Inzo Finance") ;;
        throw_if (negb talismanEth)
          (new_Error "Talisman EVM provider not found.") ;;
        network <- await GetNetwork ;;
        (if negb (network =? CORRECT_CHAIN_ID)
         then switch_network
         else Ret tt) ;;
        web3Signer <- await GetSigner ;;
        address <- await (GetAddress web3Signer) ;;
        setUserAddress address ;;
        setInzoStakeContract
          {| contract_address := INZO_STAKE_ADDRESS;
             contract_signer := web3Signer |} ;;
        setStatus idle)
       (fun error => setStatus (Panel.error (err_message error))))
    (setLoading false).

(** The two wallet requests of the network step, and the boundary
    events of a connection up to the first of them. *)
Definition switch_request : Request :=
  SwitchEthereumChain (chainId networkConfig).

Definition add_request : Request := AddEthereumChain networkConfig.

Definition until_switch : list Event :=
  [Issue (Enable "Inzo Finance"); Settle (Enable "Inzo Finance") true;
   Issue GetNetwork; Settle GetNetwork true; Issue switch_request].

(** [fetchTVL]: a failed query is only logged to the console. *)
Definition fetchTVL (pool : option Contract) : Prog Effect unit :=
  match pool with
  | Some c =>
      try_catch
        (totalStaked <- await (Read (TotalStaked c)) ;;
         setTvl (parseFloat (formatUnits totalStaked 18)))
        (fun _ => Ret tt)
  | None => Ret tt
  end.

End App.

(** ** The numeric tween behind [animate] *)

Module Tween.
Local Open Scope Q_scope.

Section Easing.
(** The easing curve: normalized time to normalized progress. *)
Variable easing : Q -> Q.

(** Modelled from the spec: the sampler of framer-motion's
    [animate(from, to, { duration, ease, onUpdate })], which is not
    under src/.  The sample at [elapsed] is
    [previousValue + (targetValue - previousValue) * easing (elapsed / duration)],
    clamped so that a sample taken at or after [duration] is
    [targetValue] itself.  Values are exact rationals. *)
Definition sample (previousValue targetValue duration elapsed : Q) : Q :=
  if Qle_bool duration elapsed then targetValue
  else previousValue
       + (targetValue - previousValue) * easing (elapsed / duration).

(** Modelled from the spec: the samples handed to [onUpdate] over the
    animation frames that follow [start], given by their elapsed
    times; the tween stops with the first frame at or after
    [duration]. *)
Fixpoint samples (previousValue targetValue duration : Q)
    (frames : list Q) : list Q :=
  match frames with
  | [] => []
  | elapsed :: later =>
      sample previousValue targetValue duration elapsed
      :: (if Qle_bool duration elapsed then []
          else samples previousValue targetValue duration later)
  end.
End Easing.

(** A quadratic ease-out curve, [1 - (1 - t)^2]: fast start, slow
    finish. *)
Definition quadOut (t : Q) : Q := 1 - (1 - t) * (1 - t).

End Tween.

(** ** AnimatedNumber *)

Module AnimatedNumber.
Import Ethers.
Local Open Scope string_scope.
Local Open Scope Q_scope.

(** The digits of [|x|] rounded to [f] decimals, ties away from zero:
    integer part and fraction part. *)
Definition fixed_digits (x : Q) (f : nat) : string * string :=
  let scale := (10 ^ Z.of_nat f)%Z in
  let n := Qfloor (Qabs x * inject_Z scale + (1 # 2)) in
  (decimal_string (n / scale), pad_left f (decimal_string (n mod scale))).

Definition sign_of (x : Q) : string :=
  if Qle_bool 0 x then "" else "-".

Definition with_fraction (whole frac : string) (f : nat) : string :=
  match f with
  | O => whole
  | _ => whole ++ "." ++ frac
  end.

(** [x.toFixed(f)] *)
Definition toFixed (x : Q) (f : nat) : string :=
  let '(whole, frac) := fixed_digits x f in
  sign_of x ++ with_fraction whole frac f.

(** Groups of three digits from the right, separated by commas. *)
Fixpoint group_rev (ds : list ascii) (n : nat) : list ascii :=
  match ds with
  | [] => []
  | d :: rest =>
      match n, rest with
      | 2%nat, _ :: _ => d :: ","%char :: group_rev rest 0
      | _, _ => d :: group_rev rest (S n)
      end
  end.

Definition grouped (whole : string) : string :=
  string_of_list_ascii
    (rev (group_rev (rev (list_ascii_of_string whole)) 0)).

(** [x.toLocaleString('en-US', { minimumFractionDigits: f,
    maximumFractionDigits: f })] *)
Definition toLocaleString (x : Q) (f : nat) : string :=
  let '(whole, frac) := fixed_digits x f in
  sign_of x ++ with_fraction (grouped whole) frac f.

(** The two copies of the component differ in how [onUpdate] prints a
    sample and in the default of the [precision] prop. *)
Record Flavour : Type := {
  print : Q -> nat -> string;
  default_precision : nat
}.

(** [src/components/AnimatedNumber.js] *)
Definition standalone : Flavour :=
  {| print := toFixed; default_precision := 6 |}.

(** The copy inside the dashboard module. *)
Definition dashboard : Flavour :=
  {| print := toLocaleString; default_precision := 2 |}.

(** [duration: 0.8] *)
Definition duration : Q := 8 # 10.

(** A running animation: what [animate] was called with, when, and the
    precision its [onUpdate] closure prints with. *)
Record Animation : Type := {
  anim_id : nat;
  from : Q;
  to : Q;
  started : Q;
  shown_precision : nat
}.

(** A mounted display slot. *)
Record Slot : Type := {
  value : Q;                  (* the [value] prop of the last render *)
  precision : nat;            (* the [precision] prop of the last render *)
  node : option string;       (* [ref.current]: the span's textContent *)
  prevValue : Q;              (* [prevValue.current] *)
  controls : option nat;      (* the animation the effect's cleanup stops *)
  running : list Animation;   (* animations still writing to the span *)
  next_id : nat;
  now : Q                     (* the clock, in seconds *)
}.

Section Component.
Variable flavour : Flavour.
Variable easeOut : Q -> Q.

(** Modelled from the spec: [controls.stop()], the cancel handle of
    framer-motion's [animate], which is not under src/.  The animation
    emits no further sample; the span keeps what was last written. *)
Definition stop (id : nat) (l : list Animation) : list Animation :=
  filter (fun a => negb (anim_id a =? id)%nat) l.

(** The cleanup returned by the last run of the effect, if any. *)
Definition cleanup (s : Slot) : Slot :=
  match controls s with
  | Some id =>
      {| value := value s; precision := precision s; node := node s;
         prevValue := prevValue s; controls := None;
         running := stop id (running s); next_id := next_id s;
         now := now s |}
  | None => s
  end.

(** The body of [useEffect]. *)
Definition effect (s : Slot) : Slot :=
  match node s with
  | None => s
  | Some _ =>
      {| value := value s; precision := precision s; node := node s;
         prevValue := value s;
         controls := Some (next_id s);
         running :=
           running s ++
           [{| anim_id := next_id s; from := prevValue s; to := value s;
               started := now s; shown_precision := precision s |}];
         next_id := S (next_id s);
         now := now s |}
  end.

(** First render: [useRef(value)], the span is attached, then the
    effect runs. *)
Definition mount (v : Q) (p : option nat) : Slot :=
  let prec :=
    match p with Some n => n | None => default_precision flavour end in
  effect {| value := v; precision := prec; node := Some "";
            prevValue := v; controls := None; running := [];
            next_id := 0; now := 0 |}.

(** A later render with props [v] and [p]: when a dependency of the
    effect changed, the previous cleanup runs and then the effect. *)
Definition render (v : Q) (p : option nat) (s : Slot) : Slot :=
  let prec :=
    match p with Some n => n | None => default_precision flavour end in
  let s' :=
    {| value := v; precision := prec; node := node s;
       prevValue := prevValue s; controls := controls s;
       running := running s; next_id := next_id s; now := now s |} in
  if Qeq_bool v (value s) && (prec =? precision s)%nat then s'
  else effect (cleanup s').

(** [onUpdate(latest)] of animation [a]. *)
Definition onUpdate (a : Animation) (latest : Q) (text : option string)
  : option string :=
  match text with
  | Some _ => Some (print flavour latest (shown_precision a))
  | None => None
  end.

(** Modelled from the spec: the frame loop of framer-motion's
    [animate], which is not under src/.  At an animation frame at time
    [t] every running animation hands its sample to [onUpdate]; those
    that reached their duration are over. *)
Definition frame (t : Q) (s : Slot) : Slot :=
  let t := Qmax t (now s) in
  {| value := value s; precision := precision s;
     node :=
       fold_left
         (fun text a =>
            onUpdate a
              (Tween.sample easeOut (from a) (to a) duration
                 (t - started a)) text)
         (running s) (node s);
     prevValue := prevValue s; controls := controls s;
     running :=
       filter (fun a => negb (Qle_bool duration (t - started a)))
         (running s);
     next_id := next_id s;
     now := t |}.

(** Removal of the component: the cleanup runs and the span goes. *)
Definition unmount (s : Slot) : Slot :=
  let s' := cleanup s in
  {| value := value s'; precision := precision s'; node := None;
     prevValue := prevValue s'; controls := None;
     running := running s'; next_id := next_id s'; now := now s' |}.

Inductive SlotEvent : Type :=
| Render (v : Q) (p : option nat)
| Frame (t : Q).

Definition slot_step (s : Slot) (ev : SlotEvent) : Slot :=
  match ev with
  | Render v p => render v p s
  | Frame t => frame t s
  end.

Definition play (s : Slot) (evs : list SlotEvent) : Slot :=
  fold_left slot_step evs s.
End Component.

(** At most one animation writes to the span, and it is the one the
    pending cleanup would stop. *)
Definition one_writer (s : Slot) : Prop :=
  running s = []
  \/ exists a, running s = [a] /\ controls s = Some (anim_id a).

(** The invariant of a mounted slot: the span is attached, the ref holds
    the value last passed in, and there is at most one writer. *)
Definition slot_ok (s : Slot) : Prop :=
  node s <> None
  /\ prevValue s == value s
  /\ one_writer s
  /\ Forall (fun a => (anim_id a < next_id s)%nat) (running s).

End AnimatedNumber.

(** ** Scripted worlds, for running the components on concrete inputs *)

Module World.
Import Js Ethers External.
Local Open Scope string_scope.

(** Every promise is fulfilled: amounts read as [v], the wallet is on
    chain [chain], transactions get handle [tx]. *)
Definition fulfil (chain v : Z) (tx : TxHandle) : Answer :=
  fun r =>
    match r return Result (resp r) with
    | Enable _ => Ok tt
    | GetNetwork => Ok chain
    | SwitchEthereumChain _ => Ok tt
    | AddEthereumChain _ => Ok tt
    | GetSigner => Ok {| signer_id := 0 |}
    | GetAddress _ => Ok "0x00000000000000000000000000000000000000a1"
    | Approve _ _ _ => Ok tx
    | Stake _ _ => Ok tx
    | Withdraw _ _ => Ok tx
    | ClaimReward _ => Ok tx
    | Wait _ => Ok tt
    | Read _ => Ok v
    end.

(** The three reads of a cycle settled one by one; everything else is
    fulfilled. *)
Definition reads (balance staked earned : Result Z) : Answer :=
  fun r =>
    match r return Result (resp r) with
    | Read (BalanceOf _ _) => balance
    | Read (StakedBalance _ _) => staked
    | Read (Earned _ _) => earned
    | other => fulfil 0 0 0%nat other
    end.

(** The wallet refuses to switch chains with [e]; everything else is
    fulfilled, the wallet being on chain [chain]. *)
Definition switch_fails (chain : Z) (e : JsError) : Answer :=
  fun r =>
    match r return Result (resp r) with
    | SwitchEthereumChain _ => Err e
    | other => fulfil chain 0 0%nat other
    end.

(** A world that gives the same answer at every await. *)
Definition always (a : Answer) : nat -> Answer := fun _ => a.

(** A world that follows a script and then keeps fulfilling. *)
Definition script (answers : list Answer) : nat -> Answer :=
  fun n => nth n answers (fulfil 0 0 0%nat).

End World.
(** ** What the asynchronous functions of the card do to the busy flag *)

Module Busy.
Import Js External Async Panel StakingCard.

(** An update that leaves [loading] alone, also when it is a timeout
    whose callback runs later. *)
Fixpoint keeps_loading (u : Effect) : bool :=
  match u with
  | SetLoading _ => false
  | SetTimeout callback _ => keeps_loading callback
  | _ => true
  end.

(** A function that never touches [loading]. *)
Inductive Quiet {A : Type} : Prog Effect A -> Prop :=
| Quiet_Ret a : Quiet (Ret a)
| Quiet_Throw e : Quiet (Throw e)
| Quiet_Update u k :
    keeps_loading u = true -> Quiet k -> Quiet (Update u k)
| Quiet_Await r k : (forall x, Quiet (k x)) -> Quiet (Await r k)
| Quiet_AwaitAll qs k : (forall x, Quiet (k x)) -> Quiet (AwaitAll qs k).

(** A function that, whatever the world answers, touches [loading]
    exactly once: it clears it as its very last step, and it does not
    throw. *)
Inductive Closing : Prog Effect unit -> Prop :=
| Closing_end : Closing (Update (SetLoading false) (Ret tt))
| Closing_Update u k :
    keeps_loading u = true -> Closing k -> Closing (Update u k)
| Closing_Await r k : (forall x, Closing (k x)) -> Closing (Await r k)
| Closing_AwaitAll qs k :
    (forall x, Closing (k x)) -> Closing (AwaitAll qs k).

(** What every parked task of a card has to satisfy. *)
Definition task_ok (t : Task) : Prop :=
  match origin t with
  | WriteAction => forall a, Closing (resume (pending t) a)
  | _ => forall a, Quiet (resume (pending t) a)
  end.

Definition timers_ok (v : Ui) : Prop :=
  Forall (fun d => keeps_loading (snd d) = true) (timers v).

(** The invariant of a mounted card: the busy flag is set exactly while
    one write action is in flight, and never more than one is. *)
Definition card_ok (c : Card) : Prop :=
  Forall task_ok (tasks c)
  /\ timers_ok (ui c)
  /\ in_flight c = if loading (state (ui c)) then 1%nat else 0%nat.

End Busy.


(** ** Concrete cards and slots *)

Module Fixture.
Import JsNumber JsGlobal Js Ethers External Async Constants Panel World.
Import StakingCard.
Local Open Scope string_scope.
Definition signer0 : Signer := {| signer_id := 0 |}.

Definition pool0 : Contract :=
  {| contract_address := INZO_STAKE_ADDRESS; contract_signer := signer0 |}.

Definition token0 : Contract :=
  {| contract_address := INZO_USD_ADDRESS; contract_signer := signer0 |}.

Definition user0 : string := "0x00000000000000000000000000000000000000a1".

(** A card whose contracts are built and whose slots still show 0. *)
Definition ready : Ui :=
  {| state := update (SetInzoUSDContract token0)
                (update (SetInzoStakeContract pool0) initial_state);
     timers := []; clock := 0 |}.

Definition e18 : Z := 10 ^ 18.

Definition timeout_error : JsError := new_Error "request timed out".

(** The wallet's answer to a switch request for a chain it does not
    know. *)
Definition unknown_chain : JsError :=
  {| err_message := "Unrecognized chain ID";
     err_code := NumCode 4902; err_reason := None |}.

(** A card that has built its contracts and read 3 tokens of
    rewards. *)
Definition rewards : Answer := reads (Ok 0%Z) (Ok 0%Z) (Ok (3 * e18)%Z).

Definition funded : Card :=
  steps (mount user0 true) [Settled 0 (fulfil 0 0 0%nat); Settled 0 rewards].

(** The dashboard slot is mounted on 0 and told to show 10 at second 1;
    at second 1.4 the span reads 7.50. *)
Definition halfway : list AnimatedNumber.SlotEvent :=
  [AnimatedNumber.Frame 1; AnimatedNumber.Render 10 (Some 2%nat);
   AnimatedNumber.Frame 1.4]%Q.
End Fixture.

(** ** The mounted App and its event loop *)

Module Session.
Import JsNumber JsGlobal Js Ethers External Async Constants Panel App.
Local Open Scope string_scope.
Local Open Scope list_scope.

(** Which function a parked continuation belongs to. *)
Inductive Origin : Type := Connect | TvlPoll.

Record Task : Type := {
  origin : Origin;
  pending : Pending Effect unit
}.

(** A mounted App: its state, the asynchronous functions parked at an
    [await], and the boundary events so far. *)
Record Session : Type := {
  app : State;
  tasks : list Task;
  trace : list Event
}.

Definition spawn (o : Origin) (p : Prog Effect unit) (c : Session)
  : Session :=
  match run apply p (app c) with
  | (s, Done _) => {| app := s; tasks := tasks c; trace := trace c |}
  | (s, Parked pend) =>
      {| app := s;
         tasks := tasks c ++ [{| origin := o; pending := pend |}];
         trace := trace c ++ map Issue (outstanding pend) |}
  end.

(** The [fetchTVL] of the current render. *)
Definition fetchTVL_now (c : Session) : Prog Effect unit :=
  fetchTVL (inzoStakeContract (app c)).

(** Truthiness of the [userAddress] cell: [null] and the empty string
    are falsy. *)
Definition connected (s : State) : bool :=
  match userAddress s with
  | Some a => truthy a
  | None => false
  end.

(** The connect button exists on the connect screen only
    ([!userAddress ? ... : ...]) and carries [disabled={loading}]. *)
Definition connect_enabled (s : State) : bool :=
  negb (connected s) && negb (loading s).

(** What can happen to a mounted App.  A click on the connect button
    comes with what [getWallets()] and [window.talismanEth] hold. *)
Inductive SessionEvent : Type :=
| ClickConnect (wallets : list string) (talismanEth : bool)
| Settled (i : nat) (a : Answer)
| IntervalTick.

Definition handle (ev : SessionEvent) (c : Session) : Session :=
  match ev with
  | ClickConnect wallets talismanEth =>
      if connect_enabled (app c)
      then spawn Connect (connectWallet wallets talismanEth) c
      else c
  | Settled i a =>
      match nth_error (tasks c) i with
      | Some t =>
          spawn (origin t) (resume (pending t) a)
            {| app := app c;
               tasks := StakingCard.remove_nth i (tasks c);
               trace := trace c ++ settled (pending t) a |}
      | None => c
      end
  | IntervalTick => spawn TvlPoll (fetchTVL_now c) c
  end.

Definition address_eqb (a b : option string) : bool :=
  match a, b with
  | None, None => true
  | Some x, Some y => (x =? y)%string
  | _, _ => false
  end.

(** The effect with dependencies [[userAddress, inzoStakeContract]]:
    when one of them changed it runs again, and
    [if (userAddress) fetchTVL()] polls at once. *)
Definition rerender (before after : Session) : Session :=
  if address_eqb (userAddress (app before)) (userAddress (app after))
     && StakingCard.contract_eqb (inzoStakeContract (app before))
          (inzoStakeContract (app after))
  then after
  else if connected (app after)
       then spawn TvlPoll (fetchTVL_now after) after
       else after.

Definition step (c : Session) (ev : SessionEvent) : Session :=
  rerender c (handle ev c).

Definition steps (c : Session) (evs : list SessionEvent) : Session :=
  fold_left step evs c.

(** First render: nobody is connected, so the effect polls nothing. *)
Definition mount : Session :=
  {| app := initial_state; tasks := []; trace := [] |}.

Definition is_connect_task (t : Task) : bool :=
  match origin t with Connect => true | TvlPoll => false end.

(** The connection attempts in flight. *)
Definition connecting (c : Session) : nat :=
  List.length (filter is_connect_task (tasks c)).

(** A function that changes the TVL cell at most. *)
Inductive TvlOnly {A : Type} : Prog Effect A -> Prop :=
| TvlOnly_Ret a : TvlOnly (Ret a)
| TvlOnly_Throw e : TvlOnly (Throw e)
| TvlOnly_Update n k : TvlOnly k -> TvlOnly (Update (SetTvl n) k)
| TvlOnly_Await r k : (forall x, TvlOnly (k x)) -> TvlOnly (Await r k)
| TvlOnly_AwaitAll qs k :
    (forall x, TvlOnly (k x)) -> TvlOnly (AwaitAll qs k).

(** The shape of a connection attempt once the busy flag is set: status
    updates and awaits, then either the three setters of a completed
    connection or nothing, and the busy flag cleared last. *)
Inductive Connecting : Prog Effect unit -> Prop :=
| Connecting_end : Connecting (Update (SetLoading false) (Ret tt))
| Connecting_done address signer st :
    Connecting
      (Update (SetUserAddress address)
         (Update (SetInzoStakeContract
                    {| contract_address := INZO_STAKE_ADDRESS;
                       contract_signer := signer |})
            (Update (SetStatus st) (Update (SetLoading false) (Ret tt)))))
| Connecting_status st k :
    Connecting k -> Connecting (Update (SetStatus st) k)
| Connecting_Await r k :
    (forall x, Connecting (k x)) -> Connecting (Await r k)
| Connecting_AwaitAll qs k :
    (forall x, Connecting (k x)) -> Connecting (AwaitAll qs k).

Definition task_ok (t : Task) : Prop :=
  match origin t with
  | Connect => forall a, Connecting (resume (pending t) a)
  | TvlPoll => forall a, TvlOnly (resume (pending t) a)
  end.

(** A connected session has its stake contract, at the constant
    address. *)
Definition has_contract (s : State) : Prop :=
  connected s = true ->
  exists signer,
    inzoStakeContract s
    = Some {| contract_address := INZO_STAKE_ADDRESS;
              contract_signer := signer |}.

(** The invariant of a mounted App. *)
Definition session_ok (c : Session) : Prop :=
  Forall task_ok (tasks c)
  /\ connecting c = (if loading (app c) then 1%nat else 0%nat)
  /\ (loading (app c) = true -> connected (app c) = false)
  /\ has_contract (app c).

End Session.

(** ** What the card shows while an operation is outstanding *)

Module Waiting.
Import Js External Async Panel StakingCard.
Local Open Scope string_scope.

(** The run of a function against a scripted world, seen from the
    screen: for each [await], the component's state while the function
    is parked there, with the operations it is waiting for. *)
Fixpoint parked_states {A : Type} (p : Prog Effect A) (world : nat -> Answer)
    (n : nat) (v : Ui) : list (State * list Request) :=
  match p with
  | Ret _ => []
  | Throw _ => []
  | Update u k => parked_states k world n (apply u v)
  | Await r k =>
      (state v, [r]) :: parked_states (k (world n r)) world (S n) v
  | AwaitAll qs k =>
      (state v, map Read qs)
      :: parked_states (k (map (read_answer (world n)) qs)) world (S n) v
  end.



End Waiting.

(** ** What a card may ask and change *)

Module Scope.
Import Js Ethers External Async Constants Panel StakingCard.
Local Open Scope Z_scope.

(** The state updates of a card: contracts are built on the constant
    addresses, and the only timeout is the status reset after 3 s. *)
Definition allowed_update (u : Effect) : Prop :=
  match u with
  | SetInzoStakeContract c => contract_address c = INZO_STAKE_ADDRESS
  | SetInzoUSDContract c => contract_address c = INZO_USD_ADDRESS
  | SetTimeout callback delay => callback = SetStatus idle /\ delay = 3000
  | _ => True
  end.

(** The operations of a card whose user is [owner]: the signer, writes
    on the two configured contracts with the stake pool as spender,
    confirmations, and reads about [owner]. *)
Definition allowed_request (owner : string) (r : Request) : Prop :=
  match r with
  | GetSigner => True
  | Wait _ => True
  | Approve token spender _ =>
      contract_address token = INZO_USD_ADDRESS
      /\ spender = INZO_STAKE_ADDRESS
  | Stake pool _ => contract_address pool = INZO_STAKE_ADDRESS
  | Withdraw pool _ => contract_address pool = INZO_STAKE_ADDRESS
  | ClaimReward pool => contract_address pool = INZO_STAKE_ADDRESS
  | Read (BalanceOf token o) =>
      contract_address token = INZO_USD_ADDRESS /\ o = owner
  | Read (StakedBalance pool o) =>
      contract_address pool = INZO_STAKE_ADDRESS /\ o = owner
  | Read (Earned pool o) =>
      contract_address pool = INZO_STAKE_ADDRESS /\ o = owner
  | _ => False
  end.

Definition allowed_event (owner : string) (ev : Event) : Prop :=
  match ev with
  | Issue r => allowed_request owner r
  | Settle r _ => allowed_request owner r
  end.

(** The boundary events of a read-only query. *)
Definition is_read_event (ev : Event) : Prop :=
  match ev with
  | Issue (Read _) | Settle (Read _) _ => True
  | _ => False
  end.

(** A function that stays within these bounds whatever the world
    answers. *)
Inductive Within {A : Type} (owner : string) : Prog Effect A -> Prop :=
| Within_Ret a : Within owner (Ret a)
| Within_Throw e : Within owner (Throw e)
| Within_Update u k :
    allowed_update u -> Within owner k -> Within owner (Update u k)
| Within_Await r k :
    allowed_request owner r -> (forall x, Within owner (k x)) ->
    Within owner (Await r k)
| Within_AwaitAll qs k :
    Forall (fun q => allowed_request owner (Read q)) qs ->
    (forall x, Within owner (k x)) ->
    Within owner (AwaitAll qs k).

Definition stake_scoped (c : option Contract) : Prop :=
  forall k, c = Some k -> contract_address k = INZO_STAKE_ADDRESS.

Definition usd_scoped (c : option Contract) : Prop :=
  forall k, c = Some k -> contract_address k = INZO_USD_ADDRESS.

(** The contract cells hold the constant addresses, and every pending
    timeout resets the status to idle within 3 s from now. *)
Definition ui_scoped (v : Ui) : Prop :=
  stake_scoped (inzoStakeContract (state v))
  /\ usd_scoped (inzoUSDContract (state v))
  /\ Forall (fun d => snd d = SetStatus idle /\ fst d <= clock v + 3000)
       (timers v).

Definition task_scoped (owner : string) (t : Task) : Prop :=
  Forall (allowed_request owner) (outstanding (pending t))
  /\ forall a, Within owner (resume (pending t) a).

Definition card_scoped (c : Card) : Prop :=
  ui_scoped (ui c)
  /\ Forall (task_scoped (userAddress c)) (tasks c)
  /\ Forall (allowed_event (userAddress c)) (trace c).

(** A card that never got a provider: nothing parked, nothing asked,
    nothing armed, no contract, balances at zero. *)
Definition inert (c : Card) : Prop :=
  tasks c = [] /\ trace c = [] /\ timers (ui c) = []
  /\ inzoStakeContract (state (ui c)) = None
  /\ inzoUSDContract (state (ui c)) = None
  /\ inzoUSDBalance (state (ui c)) = JsNumber.pos_zero
  /\ stakedBalance (state (ui c)) = JsNumber.pos_zero
  /\ earnedRewards (state (ui c)) = JsNumber.pos_zero.

End Scope.

(** ** More worlds and sessions for the examples *)

Module Scenario.
Import JsNumber JsGlobal Js Ethers External Async Constants Panel World.
Import Fixture.
Local Open Scope string_scope.
Local Open Scope list_scope.

(** The wallet's error when the user dismisses a prompt. *)
Definition user_rejected : JsError :=
  {| err_message := "User rejected the request.";
     err_code := NumCode 4001; err_reason := None |}.

(** The user declines to authorise the application; everything else is
    fulfilled. *)
Definition enable_fails (e : JsError) : Answer :=
  fun r =>
    match r return Result (resp r) with
    | Enable _ => Err e
    | other => fulfil 0 0 0%nat other
    end.

(** The wallet, on chain [chain], refuses to switch with [e] and to add
    the chain with [e']; everything else is fulfilled. *)
Definition add_fails (chain : Z) (e e' : JsError) : Answer :=
  fun r =>
    match r return Result (resp r) with
    | SwitchEthereumChain _ => Err e
    | AddEthereumChain _ => Err e'
    | other => fulfil chain 0 0%nat other
    end.

(** Every promise is rejected with [e]. *)
Definition rejects (e : JsError) : Answer := fun r => Err e.

(** A wallet on the target chain that fulfils everything. *)
Definition on_target : Answer := fulfil App.CORRECT_CHAIN_ID 0 0%nat.

(** A click on the connect button and the first three answers: the
    address is still outstanding. *)
Definition almost_connected : list Session.SessionEvent :=
  [Session.ClickConnect ["talisman"] true;
   Session.Settled 0 on_target; Session.Settled 0 on_target;
   Session.Settled 0 on_target].

(** A complete connection. *)
Definition connection : list Session.SessionEvent :=
  almost_connected ++ [Session.Settled 0 on_target].

(** What a connected user may still try. *)
Definition afterwards : list Session.SessionEvent :=
  [Session.ClickConnect ["talisman"] true; Session.IntervalTick;
   Session.Settled 0 (rejects timeout_error);
   Session.Settled 0 on_target].

(** A world in which every promise is fulfilled and amounts read as
    zero. *)
Definition calm : nat -> Answer := always (fulfil 0 0 0%nat).

End Scenario.


(** * Properties *)

Import JsNumber JsGlobal Js Ethers External Async Constants Panel World.
Local Open Scope string_scope.
Local Open Scope list_scope.

(** Walks through every branch of an execution: the guards of the
    function and each answer of the world [w]. *)
Ltac explore w :=
  repeat first
    [ progress cbn
    | progress unfold read_answer
    | match goal with
      | |- context [parseUnits ?s ?d] => destruct (parseUnits s d)
      | |- context [StakingCard.deref ?c _] => destruct c
      | |- context [match ?c with Some _ => _ | None => _ end] =>
          is_var c; destruct c
      | |- context [truthy ?a] => destruct (truthy a)
      | |- context [w ?n ?r] =>
          let E := fresh "Eans" in destruct (w n r) eqn:E
      end ].

(** ** The library functions on the inputs the dashboard meets *)

Section LibraryExamples.
Import AnimatedNumber.

Example parseFloat_decimal :
  parseFloat "1523.45" = S754_finite false 6700203957341389 (-42)
  /\ parseFloat "  -5" = S754_finite true 5629499534213120 (-50)
  /\ parseFloat ".5e1" = parseFloat "5"
  /\ parseFloat "12px" = parseFloat "12".
Proof. repeat split. Qed.

Example parseFloat_zero :
  parseFloat "0" = S754_zero false
  /\ parseFloat "-0" = S754_zero true
  /\ parseFloat "1e-400" = S754_zero false.
Proof. repeat split. Qed.

Example parseFloat_not_a_number :
  parseFloat "" = NaN /\ parseFloat "abc" = NaN /\ parseFloat "." = NaN.
Proof. repeat split. Qed.

Example parseFloat_ties_to_even :
  parseFloat "9007199254740993" = parseFloat "9007199254740992"
  /\ parseFloat "9007199254740995" = parseFloat "9007199254740996".
Proof. repeat split. Qed.

Example parseFloat_limits :
  parseFloat "1.7976931348623157e308"
  = S754_finite false 9007199254740991 971
  /\ parseFloat "1.8e308" = S754_infinity false
  /\ parseFloat "5e-324" = S754_finite false 1 (-1074)
  /\ parseFloat "-Infinity" = S754_infinity true.
Proof. repeat split. Qed.

Example claim_threshold_value :
  StakingCard.claim_threshold = S754_finite false 4722366482869645 (-72).
Proof. reflexivity. Qed.

Example parseUnits_accepts :
  parseUnits "100" 18 = Ok (100 * 10 ^ 18)%Z
  /\ parseUnits "0.5" 18 = Ok (5 * 10 ^ 17)%Z
  /\ parseUnits "-5" 18 = Ok (- 5 * 10 ^ 18)%Z
  /\ parseUnits "5." 18 = Ok (5 * 10 ^ 18)%Z.
Proof. repeat split. Qed.

Example parseUnits_rejects :
  is_ok (parseUnits "" 18) = false
  /\ is_ok (parseUnits "abc" 18) = false
  /\ is_ok (parseUnits "1e5" 18) = false
  /\ is_ok (parseUnits " 1" 18) = false
  /\ is_ok (parseUnits "0.0000000000000000001" 18) = false.
Proof. repeat split. Qed.

Example formatUnits_decimal :
  formatUnits 0 18 = "0.0"
  /\ formatUnits (5 * 10 ^ 18) 18 = "5.0"
  /\ formatUnits 1523450000000000000000 18 = "1523.45"
  /\ formatUnits 1 18 = "0.000000000000000001"
  /\ formatUnits (10 ^ 11) 18 = "0.0000001".
Proof. repeat split. Qed.

Example toFixed_digits :
  toFixed 1523.45 2 = "1523.45"
  /\ toFixed 1523.45 6 = "1523.450000"
  /\ toFixed 7.5 0 = "8"
  /\ toFixed (- 0.005) 2 = "-0.01".
Proof. repeat split. Qed.

Example toLocaleString_groups :
  toLocaleString 1234567.891 2 = "1,234,567.89"
  /\ toLocaleString 138 0 = "138"
  /\ toLocaleString 999.995 2 = "1,000.00".
Proof. repeat split. Qed.
End LibraryExamples.

(** ** The two ways of running an asynchronous function agree *)

Section Semantics.
Context {U St A : Type}.
Variable apply : U -> St -> St.

(** A scripted execution is the event loop's own cycle, repeated: run to
    the next [await], let the world settle what is outstanding, resume. *)
Lemma exec_unfolds_to_run (p : Prog U A) :
  forall (w : nat -> Answer) (n : nat) (s : St),
    exec apply p w n s
    = match run apply p s with
      | (s1, Done r) => (s1, [], r)
      | (s1, Parked pend) =>
          let '(s2, tr, r) := exec apply (resume pend (w n)) w (S n) s1 in
          (s2, map Issue (outstanding pend) ++ settled pend (w n) ++ tr, r)
      end.
Proof.
  induction p as [a | e | u k IH | r k _ | qs k _]; intros w n s; cbn.
  - reflexivity.
  - reflexivity.
  - apply IH.
  - reflexivity.
  - reflexivity.
Qed.
End Semantics.

(** Case analysis on a position in a list that is known explicitly. *)
Ltac index_cases i :=
  do 16 (try (destruct i as [| i]; cbn [nth_error];
              try discriminate; try (intros; lia))).

(** ** Read cycles *)

Section ReadCycle.
Import StakingCard Fixture.

Lemma exec_await_all {A} (qs : list Query) k (w : nat -> Answer) n (v : Ui) :
  exec apply (AwaitAll qs k : Prog Effect A) w n v =
  let pend := PendAll qs k in
  let '(s', tr, res) :=
    exec apply (k (map (read_answer (w n)) qs)) w (S n) v in
  (s', map Issue (outstanding pend) ++ settled pend (w n) ++ tr, res).
Proof. reflexivity. Qed.

(** C1, as stated, fails: the balance query is rejected, the
    staked-balance query is fulfilled with 5 tokens, and after the cycle
    the staked-balance slot still shows its old value, not 5. *)
Lemma fetchData_isolation_counterexample :
  let a := reads (Err timeout_error) (Ok (5 * e18)%Z) (Ok 0%Z) in
  let v := fst (fst (exec apply (fetchData user0 (Some pool0) (Some token0))
                       (always a) 0 ready)) in
  is_ok (read_answer a (BalanceOf token0 user0)) = false
  /\ read_answer a (StakedBalance pool0 user0) = Ok (5 * e18)%Z
  /\ stakedBalance (state v) = stakedBalance (state ready)
  /\ stakedBalance (state v) <> to_display (5 * e18).
Proof.
  vm_compute. repeat split; discriminate.
Qed.

(** C1, amended: a read cycle is all or nothing.  If any of the three
    queries is rejected, the cycle changes nothing at all; if all three
    are fulfilled, all three slots take the new readings. *)
Theorem fetchData_all_or_nothing :
  forall (addr : string) (pool token : Contract) (w : nat -> Answer)
         (n : nat) (v : Ui),
    truthy addr = true ->
    let qs := [BalanceOf token addr; StakedBalance pool addr;
               Earned pool addr] in
    let v' := fst (fst (exec apply (fetchData addr (Some pool) (Some token))
                          w n v)) in
    (Exists (fun q => is_ok (read_answer (w n) q) = false) qs -> v' = v)
    /\ (forall b s e,
          map (read_answer (w n)) qs = [Ok b; Ok s; Ok e] ->
          inzoUSDBalance (state v') = to_display b
          /\ stakedBalance (state v') = to_display s
          /\ earnedRewards (state v') = to_display e).
Proof.
  intros addr pool token w n v Haddr qs v'.
  subst v' qs. unfold fetchData. rewrite Haddr.
  cbn [try_catch bind await_all]. rewrite exec_await_all.
  cbn [map].
  destruct (read_answer (w n) (BalanceOf token addr)) as [b|eb] eqn:Eb;
  destruct (read_answer (w n) (StakedBalance pool addr)) as [s|es] eqn:Es;
  destruct (read_answer (w n) (Earned pool addr)) as [e|ee] eqn:Ee;
  cbn; split;
    try (intros _; reflexivity);
    try (intros b' s' e' H; discriminate H).
  - intros H. repeat match goal with
      | H : Exists _ (_ :: _) |- _ => inversion H; clear H; subst
      | H : Exists _ [] |- _ => inversion H
      | H : is_ok _ = false |- _ => rewrite ?Eb, ?Es, ?Ee in H; discriminate H
      end.
  - intros b' s' e' H. injection H as -> -> ->. repeat split.
Qed.

Lemma fetchData_all_or_nothing_witness :
  let failing := reads (Err timeout_error) (Ok (5 * e18)%Z) (Ok 0%Z) in
  let healthy := reads (Ok e18) (Ok (5 * e18)%Z) (Ok 0%Z) in
  let cycle := fetchData user0 (Some pool0) (Some token0) in
  truthy user0 = true
  /\ fst (fst (exec apply cycle (always failing) 0 ready)) = ready
  /\ stakedBalance
       (state (fst (fst (exec apply cycle (always healthy) 0 ready))))
     = to_display (5 * e18).
Proof.
  cbv zeta.
  assert (Haddr : truthy user0 = true) by reflexivity.
  split; [exact Haddr | split].
  - apply (proj1 (fetchData_all_or_nothing user0 pool0 token0
                    (always (reads (Err timeout_error) (Ok (5 * e18)%Z)
                               (Ok 0%Z))) 0 ready Haddr)).
    apply Exists_cons_hd. reflexivity.
  - apply (proj2 (fetchData_all_or_nothing user0 pool0 token0
                    (always (reads (Ok e18) (Ok (5 * e18)%Z) (Ok 0%Z)))
                    0 ready Haddr) e18 (5 * e18)%Z 0%Z).
    reflexivity.
Defined.
End ReadCycle.

(** ** Write actions: validation *)

Section Validation.
Import StakingCard Fixture.

Lemma invalid_amount_true (action : Action) (amountStr : string) :
  action <> claim ->
  amountStr = "" \/ le (parseFloat amountStr) pos_zero = true ->
  invalid_amount action amountStr = true.
Proof.
  intros Hact Hamt. unfold invalid_amount.
  destruct action; try contradiction; cbn [is_claim negb andb];
    (destruct Hamt as [-> | ->]; [reflexivity | apply orb_true_r]).
Qed.

(** C2: for stake and withdraw, an amount string that is empty or that
    parses to a number at or below zero makes [handleTx] finish at once,
    without a single external operation, with the error status. *)
Theorem handleTx_rejects_invalid_amount :
  forall (addr : string) (pool token : option Contract) (action : Action)
         (amountStr msg : string) (w : nat -> Answer) (n : nat) (v : Ui),
    action <> claim ->
    amountStr = "" \/ le (parseFloat amountStr) pos_zero = true ->
    let p := handleTx addr pool token action amountStr msg in
    let '(v', tr, _) := exec apply p w n v in
    tr = []
    /\ run apply p v = (v', Done (Ok tt))
    /\ status (state v') = error "Failed: Check console"
    /\ loading (state v') = false.
Proof.
  intros addr pool token action amountStr msg w n v Hact Hamt p.
  subst p. unfold handleTx, attempt.
  rewrite (invalid_amount_true action amountStr Hact Hamt).
  cbn. repeat split.
Qed.

Lemma handleTx_rejects_invalid_amount_witness :
  withdraw <> claim
  /\ le (parseFloat "-5") pos_zero = true
  /\ (let p := handleTx user0 (Some pool0) (Some token0) withdraw "-5"
                 "Withdrawn successfully!" in
      let '(v', tr, _) := exec apply p (always (fulfil 0 0 0%nat)) 0 ready in
      tr = []
      /\ run apply p ready = (v', Done (Ok tt))
      /\ status (state v') = error "Failed: Check console"
      /\ loading (state v') = false).
Proof.
  assert (Ha : withdraw <> claim) by discriminate.
  assert (Hb : le (parseFloat "-5") pos_zero = true) by reflexivity.
  split; [exact Ha | split; [exact Hb | ]].
  exact (handleTx_rejects_invalid_amount user0 (Some pool0) (Some token0)
           withdraw "-5" "Withdrawn successfully!"
           (always (fulfil 0 0 0%nat)) 0 ready Ha (or_intror Hb)).
Defined.

(** The three inputs the specification names, on the stake button's
    action. *)
Example handleTx_rejects_empty_zero_negative :
  forall amountStr, In amountStr [""; "0"; "-5"] ->
    let '(v', tr, _) :=
      exec apply (handleTx user0 (Some pool0) (Some token0) stake amountStr
                    "Staked successfully!")
        (always (fulfil 0 0 0%nat)) 0 ready in
    tr = [] /\ type (status (state v')) = "error".
Proof.
  intros amountStr [<- | [<- | [<- | []]]]; vm_compute; split; reflexivity.
Qed.

(** C10: the string "abc" is not empty and parses to NaN, and
    [NaN <= 0] is false, so the guard lets it through; the [try] block
    then fails in [parseUnits], before any contract method is called,
    and the action ends with the error status. *)
Theorem handleTx_nan_amount_passes_guard :
  let p := handleTx user0 (Some pool0) (Some token0) stake "abc"
             "Staked successfully!" in
  let body := attempt user0 (Some pool0) (Some token0) stake "abc"
                "Staked successfully!" in
  truthy "abc" = true
  /\ parseFloat "abc" = NaN
  /\ le (parseFloat "abc") pos_zero = false
  /\ invalid_amount stake "abc" = false
  /\ parseUnits "abc" 18 =
       Err (invalid_argument "invalid FixedNumber string value")
  /\ (forall w n v,
        snd (exec apply body w n v) =
        Err (invalid_argument "invalid FixedNumber string value"))
  /\ (forall w n v,
        let '(v', tr, _) := exec apply p w n v in
        tr = []
        /\ status (state v') = error "Failed: Check console"
        /\ loading (state v') = false).
Proof.
  cbv zeta. repeat split.
Qed.
End Validation.

(** ** Write actions: sequencing *)

Section Sequencing.
Import StakingCard Fixture.

(** Closes the two trace properties on a trace that is known
    explicitly. *)
Ltac by_inspection :=
  split; intros i; index_cases i;
  first
    [ intros r _ j r' Hj; index_cases j
    | intros p amt H; injection H as <- <-;
      do 2 eexists; exists 1%nat, 3%nat;
      repeat split; try lia; try reflexivity; eassumption ].

(** C3: in every run of the stake action, whatever the world answers,
    [stake(amount)] is issued only after [approve(spender, amount)] was
    fulfilled with a transaction and the wait on that very transaction
    was fulfilled too; and once any operation is rejected, nothing
    further is issued. *)
Theorem stake_steps_sequential :
  forall (addr : string) (pool token : option Contract)
         (amountStr msg : string) (w : nat -> Answer) (n : nat) (v : Ui),
    let tr := snd (fst (exec apply
                          (handleTx addr pool token stake amountStr msg)
                          w n v)) in
    (forall i p amt,
        nth_error tr i = Some (Issue (Stake p amt)) ->
        exists tk tx j k,
          (j < k < i)%nat
          /\ nth_error tr j
             = Some (Settle (Approve tk INZO_STAKE_ADDRESS amt) true)
          /\ w n (Approve tk INZO_STAKE_ADDRESS amt) = Ok tx
          /\ nth_error tr k = Some (Settle (Wait tx) true))
    /\ (forall i r,
           nth_error tr i = Some (Settle r false) ->
           forall j r', (i < j)%nat -> nth_error tr j <> Some (Issue r')).
Proof.
  intros addr pool token amountStr msg w n v tr. subst tr.
  unfold handleTx, attempt, invalid_amount, fetchData.
  cbn [is_claim negb andb].
  destruct (negb (truthy amountStr) || le (parseFloat amountStr) pos_zero);
    explore w; by_inspection.
Qed.

Lemma stake_steps_sequential_witness :
  let tr := snd (fst (exec apply
                        (handleTx user0 (Some pool0) (Some token0) stake
                           "100" "Staked successfully!")
                        (always (fulfil 0 0 7%nat)) 0 ready)) in
  nth_error tr 4 = Some (Issue (Stake pool0 (100 * e18)))
  /\ exists tk tx j k,
       (j < k < 4)%nat
       /\ nth_error tr j
          = Some (Settle (Approve tk INZO_STAKE_ADDRESS (100 * e18)) true)
       /\ always (fulfil 0 0 7%nat) 0%nat
            (Approve tk INZO_STAKE_ADDRESS (100 * e18)) = Ok tx
       /\ nth_error tr k = Some (Settle (Wait tx) true).
Proof.
  cbv zeta.
  assert (H : nth_error
                (snd (fst (exec apply
                             (handleTx user0 (Some pool0) (Some token0)
                                stake "100" "Staked successfully!")
                             (always (fulfil 0 0 7%nat)) 0 ready))) 4
              = Some (Issue (Stake pool0 (100 * e18)))) by reflexivity.
  split; [exact H |].
  exact (proj1 (stake_steps_sequential user0 (Some pool0) (Some token0)
                  "100" "Staked successfully!" (always (fulfil 0 0 7%nat))
                  0 ready) 4%nat pool0 (100 * e18)%Z H).
Defined.
End Sequencing.

(** ** Write actions: the busy flag *)

Section BusyFlag.
Import StakingCard Busy.

Lemma Quiet_bind {A B} (p : Prog Effect A) (f : A -> Prog Effect B) :
  Quiet p -> (forall a, Quiet (f a)) -> Quiet (bind p f).
Proof.
  intros Hp Hf. induction Hp; cbn; try constructor; auto.
Qed.

Lemma Quiet_try_catch {A} (p : Prog Effect A) h :
  Quiet p -> (forall e, Quiet (h e)) -> Quiet (try_catch p h).
Proof.
  intros Hp Hh. induction Hp; cbn; try constructor; auto.
Qed.

Lemma Quiet_await r : Quiet (await r : Prog Effect (resp r)).
Proof. constructor. intros [x | e]; constructor. Qed.

Lemma Quiet_await_all qs : Quiet (await_all qs : Prog Effect (list Z)).
Proof.
  constructor. intros x. destruct (promise_all x); constructor.
Qed.

Lemma Quiet_deref c m : Quiet (deref c m).
Proof. destruct c; constructor. Qed.

Lemma Quiet_lift {A} (r : Result A) : Quiet (lift r).
Proof. destruct r; constructor. Qed.

Lemma Quiet_throw_if b e : Quiet (throw_if b e : Prog Effect unit).
Proof. destruct b; constructor. Qed.

Lemma fetchData_quiet addr pool token : Quiet (fetchData addr pool token).
Proof.
  unfold fetchData.
  destruct (truthy addr), pool, token; try solve [constructor].
  apply Quiet_try_catch; [| intros; constructor].
  apply Quiet_bind; [apply Quiet_await_all |].
  intros [| ? [| ? [| ? [| ? ?]]]]; try constructor;
    unfold setInzoUSDBalance, setStakedBalance, setEarnedRewards; cbn;
    repeat (constructor; try reflexivity).
Qed.

Lemma init_quiet te : Quiet (init te).
Proof.
  unfold init. destruct te; [| constructor].
  apply Quiet_bind; [apply Quiet_await |].
  intros s. cbn. repeat (constructor; try reflexivity).
Qed.

Lemma attempt_quiet addr pool token action amountStr msg :
  Quiet (attempt addr pool token action amountStr msg).
Proof.
  unfold attempt.
  apply Quiet_bind; [apply Quiet_throw_if | intros _].
  apply Quiet_bind; [destruct (negb (is_claim action));
                     [apply Quiet_lift | constructor] | intros amount].
  apply Quiet_bind.
  - destruct action; unfold setStatus;
      repeat first
        [ apply Quiet_await | apply Quiet_deref
        | apply Quiet_bind; [| intros]
        | constructor; [reflexivity |] | constructor
        | intros [? | ?] ].
  - intros _. unfold setStatus, setTimeout, setStakeAmount, setWithdrawAmount.
    cbn [bind].
    repeat (constructor; [reflexivity |]).
    apply fetchData_quiet.
Qed.

Lemma closing_try (p : Prog Effect unit) h :
  Quiet p ->
  (forall e, Closing (bind (h e) (fun _ => setLoading false))) ->
  Closing (bind (try_catch p h) (fun _ => setLoading false)).
Proof.
  intros Hp Hh. induction Hp; cbn; auto; try (constructor; auto).
Qed.

(** [handleTx] sets the busy flag first and clears it last. *)
Lemma handleTx_shape addr pool token action amountStr msg :
  exists k,
    handleTx addr pool token action amountStr msg
    = Update (SetLoading true) k
    /\ Closing k.
Proof.
  unfold handleTx. cbn [bind setLoading setStatus]. eexists. split.
  - reflexivity.
  - constructor; [reflexivity |].
    apply closing_try; [apply attempt_quiet |].
    intros e. cbn. constructor; [reflexivity | constructor].
Qed.
End BusyFlag.

Section BusyInvariant.
Import StakingCard Busy Fixture.

Lemma apply_keeps (u : Effect) (v : Ui) :
  keeps_loading u = true ->
  loading (state (apply u v)) = loading (state v)
  /\ (timers_ok v -> timers_ok (apply u v)).
Proof.
  intros Hu. destruct u; cbn in *; try discriminate; split; auto.
  unfold timers_ok. cbn. intros Hv. apply Forall_app. split; auto.
Qed.

Lemma run_quiet (p : Prog Effect unit) :
  Quiet p ->
  forall v v' out,
    run apply p v = (v', out) ->
    loading (state v') = loading (state v)
    /\ (timers_ok v -> timers_ok v')
    /\ match out with
       | Parked pend => forall a, Quiet (resume pend a)
       | Done _ => True
       end.
Proof.
  induction 1 as [a | e | u k Hu Hk IH | r k Hk _ | qs k Hk _];
    intros v v' out Hrun; cbn in Hrun.
  - injection Hrun as <- <-. auto.
  - injection Hrun as <- <-. auto.
  - destruct (apply_keeps u v Hu) as [Hl Ht].
    destruct (IH _ _ _ Hrun) as (Hl' & Ht' & Hout).
    repeat split; [congruence | auto | exact Hout].
  - injection Hrun as <- <-. repeat split; auto. intros a. apply Hk.
  - injection Hrun as <- <-. repeat split; auto. intros a. apply Hk.
Qed.

Lemma run_closing (p : Prog Effect unit) :
  Closing p ->
  forall v v' out,
    run apply p v = (v', out) ->
    (timers_ok v -> timers_ok v')
    /\ match out with
       | Parked pend =>
           loading (state v') = loading (state v)
           /\ forall a, Closing (resume pend a)
       | Done _ => loading (state v') = false
       end.
Proof.
  induction 1 as [| u k Hu Hk IH | r k Hk _ | qs k Hk _];
    intros v v' out Hrun; cbn in Hrun.
  - injection Hrun as <- <-. split; auto.
  - destruct (apply_keeps u v Hu) as [Hl Ht].
    destruct (IH _ _ _ Hrun) as (Ht' & Hout).
    split; [auto |]. destruct out as [res | pend]; [exact Hout |].
    destruct Hout as [Hl' Hc]. split; [congruence | exact Hc].
  - injection Hrun as <- <-. repeat split; auto. intros a. apply Hk.
  - injection Hrun as <- <-. repeat split; auto. intros a. apply Hk.
Qed.

Lemma in_flight_snoc (l : list Task) (t : Task) :
  List.length (filter is_write_task (l ++ [t]))
  = (List.length (filter is_write_task l)
     + if is_write_task t then 1 else 0)%nat.
Proof.
  rewrite filter_app, length_app. cbn.
  destruct (is_write_task t); reflexivity.
Qed.

Lemma in_flight_remove (l : list Task) :
  forall i t,
    nth_error l i = Some t ->
    List.length (filter is_write_task l)
    = (List.length (filter is_write_task (remove_nth i l))
       + if is_write_task t then 1 else 0)%nat.
Proof.
  induction l as [| x l IH]; intros [| i] t H; cbn in H; try discriminate.
  - injection H as ->. cbn. destruct (is_write_task t); cbn; lia.
  - cbn. specialize (IH i t H).
    destruct (is_write_task x); cbn; lia.
Qed.

Lemma Forall_remove_nth {A} (P : A -> Prop) (l : list A) :
  Forall P l -> forall i, Forall P (remove_nth i l).
Proof.
  induction 1 as [| x l Hx Hl IH]; intros [| i]; cbn; auto.
Qed.

(** Calling a function that never touches the busy flag keeps the
    invariant. *)
Lemma spawn_quiet (o : Origin) (p : Prog Effect unit) (c : Card) :
  o <> WriteAction -> Quiet p -> card_ok c -> card_ok (spawn o p c).
Proof.
  intros Ho Hp (Htasks & Htimers & Hcount). unfold spawn.
  destruct (run apply p (ui c)) as [v out] eqn:Hrun.
  destruct (run_quiet p Hp _ _ _ Hrun) as (Hl & Ht & Hout).
  destruct out as [res | pend]; unfold card_ok, in_flight in *; cbn.
  - rewrite Hl. auto.
  - rewrite Hl, in_flight_snoc.
    unfold is_write_task at 2. cbn.
    repeat split; auto.
    + apply Forall_app. split; auto. constructor; [| constructor].
      unfold task_ok. cbn. destruct o; auto. contradiction.
    + destruct o; try contradiction; lia.
Qed.

(** Continuing a write action keeps the invariant, whether it parks
    again or finishes. *)
Lemma spawn_closing (p : Prog Effect unit) (c : Card) :
  Closing p ->
  Forall task_ok (tasks c) -> timers_ok (ui c) ->
  in_flight c = 0%nat -> loading (state (ui c)) = true ->
  card_ok (spawn WriteAction p c).
Proof.
  intros Hp Htasks Htimers Hcount Hbusy. unfold spawn.
  destruct (run apply p (ui c)) as [v out] eqn:Hrun.
  destruct (run_closing p Hp _ _ _ Hrun) as (Ht & Hout).
  destruct out as [res | pend]; unfold card_ok, in_flight in *; cbn.
  - rewrite Hout. auto.
  - destruct Hout as [Hl Hc]. rewrite Hl, Hbusy, in_flight_snoc.
    cbn. repeat split; auto; [| lia].
    apply Forall_app. split; auto.
Qed.

Lemma click_ok (c : Card) action amountStr msg :
  card_ok c -> loading (state (ui c)) = false ->
  card_ok (spawn WriteAction (handleTx_now c action amountStr msg) c).
Proof.
  intros (Htasks & Htimers & Hcount) Hidle. rewrite Hidle in Hcount.
  unfold handleTx_now.
  destruct (handleTx_shape (userAddress c)
              (inzoStakeContract (state (ui c)))
              (inzoUSDContract (state (ui c))) action amountStr msg)
    as (k & -> & Hk).
  change (spawn WriteAction (Update (SetLoading true) k) c)
    with (spawn WriteAction k (with_ui c (apply (SetLoading true) (ui c)))).
  apply spawn_closing; auto.
Qed.

Lemma elapse_ok (ms : Z) (v : Ui) :
  timers_ok v ->
  loading (state (elapse ms v)) = loading (state v)
  /\ timers_ok (elapse ms v).
Proof.
  unfold elapse, timers_ok. intros Hv.
  destruct (partition _ (timers v)) as [due later] eqn:Hpart.
  assert (Hdue : Forall (fun d => keeps_loading (snd d) = true) due).
  { apply Forall_forall. intros d Hd.
    rewrite Forall_forall in Hv. apply Hv.
    apply (elements_in_partition _ _ Hpart). auto. }
  assert (Hlater : Forall (fun d => keeps_loading (snd d) = true) later).
  { apply Forall_forall. intros d Hd.
    rewrite Forall_forall in Hv. apply Hv.
    apply (elements_in_partition _ _ Hpart). auto. }
  set (w0 := {| state := state v; timers := later;
                clock := clock v + Z.max 0 ms |}).
  assert (H0 : loading (state w0) = loading (state v)
               /\ Forall (fun d => keeps_loading (snd d) = true) (timers w0))
    by (split; [reflexivity | exact Hlater]).
  clearbody w0. clear Hpart Hlater Hv.
  revert w0 H0. induction Hdue as [| d due Hd _ IH]; intros w0 H0; cbn.
  - exact H0.
  - apply IH. destruct (apply_keeps (snd d) w0 Hd) as [Hl Ht].
    destruct H0 as [H1 H2]. split; [congruence | apply Ht; exact H2].
Qed.

Lemma handle_ok (ev : UiEvent) (c : Card) : card_ok c -> card_ok (handle ev c).
Proof.
  intros Hc. destruct ev as [s | s | | | | i a | | ms]; cbn [handle].
  - destruct Hc as (Htasks & Htimers & Hcount).
    repeat split; auto.
  - destruct Hc as (Htasks & Htimers & Hcount).
    repeat split; auto.
  - unfold stake_disabled.
    destruct (loading (state (ui c))) eqn:Hl;
      [rewrite orb_true_r; exact Hc |].
    destruct (negb _); cbn [orb]; [exact Hc | apply click_ok; auto].
  - unfold withdraw_disabled.
    destruct (loading (state (ui c))) eqn:Hl;
      [rewrite orb_true_r; exact Hc |].
    destruct (negb _); cbn [orb]; [exact Hc | apply click_ok; auto].
  - unfold claim_disabled.
    destruct (loading (state (ui c))) eqn:Hl;
      [rewrite orb_true_r; exact Hc |].
    destruct (le _ _); cbn [orb]; [exact Hc | apply click_ok; auto].
  - destruct (nth_error (tasks c) i) as [t |] eqn:Hnth; [| exact Hc].
    destruct Hc as (Htasks & Htimers & Hcount).
    assert (Ht : task_ok t).
    { rewrite Forall_forall in Htasks. apply Htasks.
      eapply nth_error_In; eauto. }
    pose proof (in_flight_remove _ _ _ Hnth) as Hrem.
    unfold in_flight in Hcount. rewrite Hrem in Hcount.
    set (c' := {| userAddress := userAddress c; ui := ui c;
                  tasks := remove_nth i (tasks c);
                  trace := trace c ++ settled (pending t) a |}).
    assert (Htasks' : Forall task_ok (tasks c'))
      by (apply Forall_remove_nth; exact Htasks).
    unfold task_ok in Ht.
    assert (Hw : is_write_task t
                 = match origin t with WriteAction => true | _ => false end)
      by reflexivity.
    destruct (origin t) eqn:Ho; rewrite Hw in Hcount.
    + apply spawn_closing; auto.
      * unfold in_flight. cbn.
        destruct (loading (state (ui c))); lia.
      * cbn. destruct (loading (state (ui c))); [reflexivity | lia].
    + apply spawn_quiet; auto; [discriminate |].
      repeat split; auto. unfold in_flight. cbn. lia.
    + apply spawn_quiet; auto; [discriminate |].
      repeat split; auto. unfold in_flight. cbn. lia.
  - apply spawn_quiet; auto; [discriminate | apply fetchData_quiet].
  - destruct Hc as (Htasks & Htimers & Hcount).
    destruct (elapse_ok ms (ui c) Htimers) as [Hl Ht].
    unfold card_ok, in_flight in *. cbn. rewrite Hl. auto.
Qed.

Lemma step_ok (c : Card) (ev : UiEvent) : card_ok c -> card_ok (step c ev).
Proof.
  intros Hc. unfold step, rerender.
  pose proof (handle_ok ev c Hc) as H.
  destruct (_ && _); [exact H |].
  apply spawn_quiet; auto; [discriminate | apply fetchData_quiet].
Qed.

Lemma mount_ok (addr : string) (te : bool) : card_ok (mount addr te).
Proof.
  unfold mount.
  apply spawn_quiet; [discriminate | apply fetchData_quiet |].
  apply spawn_quiet; [discriminate | apply init_quiet |].
  repeat split; constructor.
Qed.

Lemma steps_ok (evs : list UiEvent) :
  forall c, card_ok c -> card_ok (steps c evs).
Proof.
  induction evs as [| ev evs IH]; intros c Hc; cbn; auto.
  apply IH, step_ok, Hc.
Qed.

Lemma contract_eqb_refl (c : option Contract) : contract_eqb c c = true.
Proof.
  destruct c as [c |]; cbn; auto.
  rewrite String.eqb_refl, Nat.eqb_refl. reflexivity.
Qed.

(** C4: on a card reached from mounting by any sequence of events, at
    most one write-action sequence is in flight, one is in flight
    exactly while the busy flag is set, and while it is set a click on
    any of the three buttons changes nothing: no function is called,
    no operation is issued. *)
Theorem busy_card_rejects_write_actions :
  forall (addr : string) (talismanEth : bool) (evs : list UiEvent),
    let c := steps (mount addr talismanEth) evs in
    (in_flight c <= 1)%nat
    /\ (in_flight c = 1%nat <-> loading (state (ui c)) = true)
    /\ (loading (state (ui c)) = true ->
        step c ClickStake = c
        /\ step c ClickWithdraw = c
        /\ step c ClickClaim = c).
Proof.
  intros addr te evs c.
  destruct (steps_ok evs _ (mount_ok addr te)) as (_ & _ & Hcount).
  fold c in Hcount.
  split; [| split; [split |]].
  - rewrite Hcount. destruct (loading _); lia.
  - rewrite Hcount. destruct (loading _); [reflexivity | discriminate].
  - intros Hl. rewrite Hcount, Hl. reflexivity.
  - intros Hbusy. unfold step, rerender. cbn [handle].
    unfold stake_disabled, withdraw_disabled, claim_disabled.
    rewrite Hbusy, !orb_true_r, !contract_eqb_refl.
    split; [| split]; reflexivity.
Qed.

Lemma busy_card_rejects_write_actions_witness :
  let c := steps (mount user0 true)
             [Settled 0 (fulfil 0 0 0%nat); Settled 0 rewards;
              ClickClaim; ChangeStake "5"] in
  loading (state (ui c)) = true
  /\ in_flight c = 1%nat
  /\ step c ClickStake = c
  /\ step c ClickWithdraw = c
  /\ step c ClickClaim = c.
Proof.
  cbv zeta.
  pose proof (busy_card_rejects_write_actions user0 true
                [Settled 0 (fulfil 0 0 0%nat); Settled 0 rewards;
                 ClickClaim; ChangeStake "5"]) as H.
  cbv zeta in H. destruct H as (_ & Hiff & Hreject).
  assert (Hbusy : loading (state (ui (steps (mount user0 true)
                    [Settled 0 (fulfil 0 0 0%nat); Settled 0 rewards;
                     ClickClaim; ChangeStake "5"]))) = true)
    by reflexivity.
  split; [exact Hbusy | split].
  - apply Hiff. exact Hbusy.
  - exact (Hreject Hbusy).
Defined.
End BusyInvariant.

(** ** Write actions: the status line and its timeout *)

Section StatusLine.
Import StakingCard Fixture.

(** What a finished [handleTx] leaves behind: either the success status
    together with one new timeout, due 3000 ms later, that resets the
    status to idle, or an error status and no new timeout. *)
Lemma handleTx_outcome :
  forall (addr : string) (pool token : option Contract) (action : Action)
         (amountStr msg : string) (w : nat -> Answer) (n : nat) (v : Ui),
    let v' := fst (fst (exec apply
                          (handleTx addr pool token action amountStr msg)
                          w n v)) in
    loading (state v') = false
    /\ ((status (state v') = success msg
         /\ timers v' = timers v ++ [(clock v + 3000, SetStatus idle)])
        \/ (exists e, status (state v') = error_status e
                      /\ timers v' = timers v)).
Proof.
  intros addr pool token action amountStr msg w n v v'. subst v'.
  unfold handleTx, attempt, fetchData.
  destruct (invalid_amount action amountStr); cbn;
    [split; [reflexivity | right; eexists; split; reflexivity] |].
  destruct action; cbn [is_claim negb]; explore w;
    (split;
     [ reflexivity
     | first [ left; split; reflexivity
             | right; eexists; split; reflexivity ] ]).
Qed.

(** When the only pending timeout is the one a successful action armed,
    the status is idle again once its 3000 ms have passed. *)
Lemma success_reverts_to_idle (v : Ui) (due ms : Z) :
  timers v = [(due, SetStatus idle)] ->
  (due <= clock v + ms)%Z -> (0 <= ms)%Z ->
  status (state (elapse ms v)) = idle /\ timers (elapse ms v) = [].
Proof.
  intros Ht Hdue Hms. unfold elapse. rewrite Ht. cbn.
  rewrite Z.max_r by lia.
  destruct (due <=? clock v + ms)%Z eqn:E; [| apply Z.leb_gt in E; lia].
  cbn. split; reflexivity.
Qed.

(** C5, the failing run.  A claim succeeds at time 0 and arms its
    timeout.  One second later the user types 0 and presses Stake: the
    amount is invalid and the status becomes the error.  Nobody touches
    the card again, and two seconds later the timeout of the earlier
    success fires and wipes the error. *)
Theorem stale_timeout_clears_error :
  let claimed :=
    steps funded
      [ClickClaim; Settled 0 (fulfil 0 0 7%nat);
       Settled 0 (fulfil 0 0 7%nat); Settled 0 rewards] in
  let failed := steps claimed [Elapse 1000; ChangeStake "0"; ClickStake] in
  let later := step failed (Elapse 2000) in
  (status (state (ui claimed)) = success "Rewards claimed!"
   /\ timers (ui claimed) = [(3000%Z, SetStatus idle)]
   /\ loading (state (ui claimed)) = false)
  /\ (status (state (ui failed)) = error "Failed: Check console"
      /\ tasks failed = [] /\ clock (ui failed) = 1000%Z)
  /\ (status (state (ui later)) = idle
      /\ trace later = trace failed /\ clock (ui later) = 3000%Z).
Proof.
  vm_compute. repeat split.
Qed.

(** C8: while the rewards shown are at or below 0.000001 the claim
    button is disabled: a click leaves the card as it is, so
    [handleTx] is not called and nothing is issued. *)
Theorem claim_disabled_at_or_below_threshold :
  forall c : Card,
    le (earnedRewards (state (ui c))) claim_threshold = true ->
    claim_disabled (state (ui c)) = true
    /\ step c ClickClaim = c.
Proof.
  intros c Hle. unfold step, rerender, claim_disabled. cbn [handle].
  unfold claim_disabled. rewrite Hle. cbn [orb].
  rewrite !contract_eqb_refl. split; reflexivity.
Qed.

Lemma claim_disabled_at_or_below_threshold_witness :
  let c := steps (mount user0 true)
             [Settled 0 (fulfil 0 0 0%nat);
              Settled 0 (reads (Ok 0%Z) (Ok 0%Z) (Ok (10 ^ 11)%Z))] in
  earnedRewards (state (ui c)) = parseFloat "0.0000001"
  /\ le (earnedRewards (state (ui c))) claim_threshold = true
  /\ claim_disabled (state (ui c)) = true
  /\ step c ClickClaim = c.
Proof.
  cbv zeta.
  assert (Hle : le (earnedRewards (state (ui (steps (mount user0 true)
             [Settled 0 (fulfil 0 0 0%nat);
              Settled 0 (reads (Ok 0%Z) (Ok 0%Z) (Ok (10 ^ 11)%Z))]))))
                  claim_threshold = true) by reflexivity.
  split; [reflexivity | split; [exact Hle |]].
  exact (claim_disabled_at_or_below_threshold _ Hle).
Defined.

(** The threshold itself is still disabled; the next number above it is
    not. *)
Example claim_threshold_boundary :
  le (parseFloat "0.000001") claim_threshold = true
  /\ le (parseFloat "0.0000010000000000000002") claim_threshold = false.
Proof. split; reflexivity. Qed.
End StatusLine.

(** ** Wallet connection *)

Section Connection.
Import App Fixture.

Example target_chain_quantity : toQuantity CORRECT_CHAIN_ID = "0x190f1b45".
Proof. reflexivity. Qed.

(** C7: once the wallet is enabled and reports a chain other than the
    target, the switch request is issued.  If it is rejected with code
    4902 the add-network request, carrying the static descriptor, is
    issued next.  If it is rejected with anything else nothing more is
    issued, the status is the error "User rejected network switch.",
    and the connection is given up: no address, no contract. *)
Theorem connectWallet_switches_network :
  forall (wallets : list string) (w : nat -> Answer) (s : State)
         (chain : Z),
    existsb (String.eqb "talisman") wallets = true ->
    w 0%nat (Enable "Inzo Finance") = Ok tt ->
    w 1%nat GetNetwork = Ok chain ->
    chain <> CORRECT_CHAIN_ID ->
    let '(s', tr, _) := exec apply (connectWallet wallets true) w 0 s in
    firstn 5 tr = until_switch
    /\ (w 2%nat switch_request = Ok tt ->
        forall cfg, ~ In (Issue (AddEthereumChain cfg)) tr)
    /\ (forall e,
          w 2%nat switch_request = Err e -> code_is e 4902 = true ->
          firstn 7 tr
          = until_switch ++ [Settle switch_request false; Issue add_request])
    /\ (forall e,
          w 2%nat switch_request = Err e -> code_is e 4902 = false ->
          tr = until_switch ++ [Settle switch_request false]
          /\ status s' = error "User rejected network switch."
          /\ userAddress s' = userAddress s
          /\ inzoStakeContract s' = inzoStakeContract s
          /\ loading s' = false).
Proof.
  intros wallets w s chain Hwallet Henable Hnet Hchain.
  unfold connectWallet, switch_network, switch_request, add_request in *.
  rewrite Hwallet. cbn. rewrite Henable. cbn. rewrite Hnet. cbn.
  destruct (chain =? CORRECT_CHAIN_ID)%Z eqn:E;
    [apply Z.eqb_eq in E; contradiction |].
  cbn.
  change (toQuantity CORRECT_CHAIN_ID) with "0x190f1b45" in *.
  destruct (w 2%nat (SwitchEthereumChain "0x190f1b45")) as [[] | e] eqn:Esw;
    cbn.
  - explore w; (split; [reflexivity |]); (split; [| split; discriminate]);
      intros _ cfg Hin; cbn in Hin;
      repeat (destruct Hin as [Hin | Hin]; [discriminate Hin |]);
      exact Hin.
  - destruct (code_is e 4902) eqn:Ecode; cbn.
    + explore w; (split; [reflexivity |]);
        (split; [discriminate |]);
        (split; [intros e' _ _; reflexivity |]);
        intros e' He' Hc; injection He' as <-; congruence.
    + split; [reflexivity |]. split; [discriminate |].
      split; [intros e' He' Hc; injection He' as <-; congruence |].
      intros e' _ _. repeat split.
Qed.

Lemma connectWallet_switches_network_witness :
  let w := script [fulfil 1 0 0%nat; fulfil 1 0 0%nat;
                   switch_fails 1 unknown_chain] in
  existsb (String.eqb "talisman") ["polkadot-js"; "talisman"] = true
  /\ w 1%nat GetNetwork = Ok 1%Z
  /\ w 2%nat switch_request = Err unknown_chain
  /\ code_is unknown_chain 4902 = true
  /\ firstn 7 (snd (fst (exec apply
                           (connectWallet ["polkadot-js"; "talisman"] true)
                           w 0 initial_state)))
     = until_switch ++ [Settle switch_request false; Issue add_request].
Proof.
  cbv zeta.
  set (w := script [fulfil 1 0 0%nat; fulfil 1 0 0%nat;
                    switch_fails 1 unknown_chain]).
  assert (Hw : existsb (String.eqb "talisman") ["polkadot-js"; "talisman"]
               = true) by reflexivity.
  assert (He : w 0%nat (Enable "Inzo Finance") = Ok tt) by reflexivity.
  assert (Hn : w 1%nat GetNetwork = Ok 1%Z) by reflexivity.
  assert (Hc : 1%Z <> CORRECT_CHAIN_ID) by discriminate.
  assert (Hs : w 2%nat switch_request = Err unknown_chain) by reflexivity.
  assert (H4 : code_is unknown_chain 4902 = true) by reflexivity.
  split; [exact Hw | split; [exact Hn | split; [exact Hs |
    split; [exact H4 |]]]].
  pose proof (connectWallet_switches_network ["polkadot-js"; "talisman"]
                w initial_state 1%Z Hw He Hn Hc) as H.
  destruct (exec apply (connectWallet ["polkadot-js"; "talisman"] true)
              w 0 initial_state) as [[s' tr] res].
  destruct H as (_ & _ & Hadd & _).
  exact (Hadd unknown_chain Hs H4).
Defined.
End Connection.

(** ** The tween *)

Section TweenProperties.
Import Tween.
Local Open Scope Q_scope.

Variable easing : Q -> Q.
Hypothesis easing_range : forall x, 0 <= x <= 1 -> 0 <= easing x <= 1.
Hypothesis easing_monotone :
  forall x y, 0 <= x -> x <= y -> y <= 1 -> easing x <= easing y.

Lemma progress_in_unit (duration elapsed : Q) :
  0 < duration -> 0 <= elapsed -> elapsed < duration ->
  0 <= elapsed / duration <= 1.
Proof.
  intros Hd He Hlt. split.
  - apply Qle_shift_div_l; [exact Hd | lra].
  - apply Qle_shift_div_r; [exact Hd | lra].
Qed.

Lemma blend_between (a b p : Q) :
  0 <= p <= 1 -> Qmin a b <= a + (b - a) * p <= Qmax a b.
Proof.
  intros [H0 H1].
  destruct (Qlt_le_dec a b) as [Hab | Hba].
  - rewrite (Q.min_l a b), (Q.max_r a b) by lra. split; nra.
  - rewrite (Q.min_r a b), (Q.max_l a b) by lra. split; nra.
Qed.

Lemma sample_between (prev target duration elapsed : Q) :
  0 < duration -> 0 <= elapsed ->
  Qmin prev target <= sample easing prev target duration elapsed
                   <= Qmax prev target.
Proof.
  intros Hd He. unfold sample.
  destruct (Qle_bool duration elapsed) eqn:E.
  - split; [apply Q.le_min_r | apply Q.le_max_r].
  - apply blend_between, easing_range, progress_in_unit; auto.
    apply Qnot_le_lt. intros H. apply Qle_bool_iff in H. congruence.
Qed.

Lemma samples_nth (prev target duration : Q) (frames : list Q) :
  forall i t y,
    nth_error frames i = Some t ->
    nth_error (samples easing prev target duration frames) i = Some y ->
    y = sample easing prev target duration t.
Proof.
  induction frames as [| t0 later IH]; intros [| i] t y Ht Hy;
    cbn in Ht, Hy; try discriminate.
  - congruence.
  - destruct (Qle_bool duration t0).
    + destruct i; discriminate.
    + eapply IH; eauto.
Qed.

Lemma samples_end (prev target duration : Q) (frames : list Q) :
  Exists (fun t => duration <= t) frames ->
  exists earlier,
    samples easing prev target duration frames = earlier ++ [target].
Proof.
  induction frames as [| t0 later IH]; intros Hex.
  - inversion Hex.
  - cbn. unfold sample at 1.
    destruct (Qle_bool duration t0) eqn:E.
    + exists []. reflexivity.
    + inversion Hex as [? ? Hhead | ? ? Htail]; subst.
      * apply Qle_bool_iff in Hhead. congruence.
      * destruct (IH Htail) as [earlier ->].
        eexists (_ :: earlier). reflexivity.
Qed.

Lemma sample_converges (prev target duration t1 t2 : Q) :
  0 < duration -> 0 <= t1 -> t1 <= t2 ->
  (prev <= target ->
   sample easing prev target duration t1
   <= sample easing prev target duration t2)
  /\ (target <= prev ->
      sample easing prev target duration t2
      <= sample easing prev target duration t1).
Proof.
  intros Hd H1 H12.
  pose proof (sample_between prev target duration t1 Hd H1) as B1.
  unfold sample in *.
  destruct (Qle_bool duration t2) eqn:E2.
  - split; intros Hpt.
    + rewrite Q.max_r in B1 by exact Hpt. apply B1.
    + rewrite Q.min_r in B1 by exact Hpt. apply B1.
  - assert (H2 : t2 < duration).
    { apply Qnot_le_lt. intros H. apply Qle_bool_iff in H. congruence. }
    destruct (Qle_bool duration t1) eqn:E1.
    { apply Qle_bool_iff in E1. lra. }
    assert (Hp : easing (t1 / duration) <= easing (t2 / duration)).
    { apply easing_monotone.
      - apply Qle_shift_div_l; [exact Hd | lra].
      - unfold Qdiv. apply Qmult_le_compat_r; [exact H12 |].
        apply Qinv_le_0_compat. lra.
      - apply Qle_shift_div_r; [exact Hd | lra]. }
    split; intros Hpt; nra.
Qed.

(** C9: with a positive duration and an easing curve that is monotone
    from [0,1] to [0,1], every sample before the end is
    [previousValue + (targetValue - previousValue) * easing (elapsed / duration)],
    a sample at or after the end is the target itself, every sample
    lies between the smaller and the larger of the two values, later
    samples are never farther from the target than earlier ones, and
    the last sample of a tween that ran to its end is exactly the
    target. *)
Theorem tween_samples_converge :
  forall (previousValue targetValue duration : Q) (frames : list Q),
    0 < duration ->
    Forall (fun elapsed => 0 <= elapsed) frames ->
    let out := samples easing previousValue targetValue duration frames in
    (forall i elapsed y,
        nth_error frames i = Some elapsed ->
        nth_error out i = Some y ->
        (elapsed < duration ->
         y = previousValue
             + (targetValue - previousValue) * easing (elapsed / duration))
        /\ (duration <= elapsed -> y = targetValue))
    /\ Forall (fun y => Qmin previousValue targetValue <= y
                        <= Qmax previousValue targetValue) out
    /\ (forall t1 t2,
          0 <= t1 -> t1 <= t2 ->
          (previousValue <= targetValue ->
           sample easing previousValue targetValue duration t1
           <= sample easing previousValue targetValue duration t2)
          /\ (targetValue <= previousValue ->
              sample easing previousValue targetValue duration t2
              <= sample easing previousValue targetValue duration t1))
    /\ (Exists (fun elapsed => duration <= elapsed) frames ->
        exists earlier, out = earlier ++ [targetValue]).
Proof.
  intros prev target duration frames Hd Hframes out. subst out.
  split; [| split; [| split]].
  - intros i elapsed y Ht Hy.
    rewrite (samples_nth prev target duration frames i elapsed y Ht Hy).
    unfold sample. split; intros H.
    + destruct (Qle_bool duration elapsed) eqn:E; [| reflexivity].
      apply Qle_bool_iff in E. lra.
    + apply Qle_bool_iff in H. rewrite H. reflexivity.
  - induction Hframes as [| t0 later H0 _ IH]; cbn; constructor.
    + apply sample_between; assumption.
    + destruct (Qle_bool duration t0); [constructor | exact IH].
  - intros t1 t2 H1 H12. apply sample_converges; assumption.
  - apply samples_end.
Qed.
End TweenProperties.

Section QuadOut.
Import Tween.
Local Open Scope Q_scope.

Lemma quadOut_range (x : Q) : 0 <= x <= 1 -> 0 <= quadOut x <= 1.
Proof. unfold quadOut. intros [H0 H1]. split; nra. Qed.

Lemma quadOut_monotone (x y : Q) :
  0 <= x -> x <= y -> y <= 1 -> quadOut x <= quadOut y.
Proof. unfold quadOut. intros H0 Hxy H1. nra. Qed.

Lemma tween_samples_converge_witness :
  0 < 0.8
  /\ Forall (fun elapsed => 0 <= elapsed) [0; 0.2; 0.4; 1]
  /\ Exists (fun elapsed => 0.8 <= elapsed) [0; 0.2; 0.4; 1]
  /\ exists earlier,
       samples quadOut 1000 1523.45 0.8 [0; 0.2; 0.4; 1]
       = earlier ++ [1523.45].
Proof.
  assert (Hd : 0 < 0.8) by reflexivity.
  assert (Hf : Forall (fun elapsed => 0 <= elapsed) [0; 0.2; 0.4; 1])
    by (repeat constructor; discriminate).
  assert (He : Exists (fun elapsed => 0.8 <= elapsed)
                 [0; 0.2; 0.4; 1])
    by (do 3 apply Exists_cons_tl; apply Exists_cons_hd; discriminate).
  split; [exact Hd | split; [exact Hf | split; [exact He |]]].
  exact (proj2 (proj2 (proj2
           (tween_samples_converge quadOut quadOut_range quadOut_monotone
              1000 1523.45 0.8 [0; 0.2; 0.4; 1] Hd Hf)))
           He).
Defined.

(** The balance example of the specification: from 1000.00 to 1523.45
    the samples rise and end on 1523.45. *)
Example balance_tween :
  samples quadOut 1000 1523.45 0.8 [0; 0.2; 0.4; 1]
  = [1000 + (1523.45 - 1000) * quadOut (0 / 0.8);
     1000 + (1523.45 - 1000) * quadOut (0.2 / 0.8);
     1000 + (1523.45 - 1000) * quadOut (0.4 / 0.8);
     1523.45].
Proof. reflexivity. Qed.
End QuadOut.

(** ** AnimatedNumber *)

Section Restart.
Import AnimatedNumber.
Local Open Scope Q_scope.

Variable flavour : Flavour.
Variable easeOut : Q -> Q.

Lemma cleanup_running_nil (s : Slot) :
  one_writer s -> running (cleanup s) = [].
Proof.
  intros [Hnil | (a & Ha & Hc)]; unfold cleanup.
  - destruct (controls s); cbn; rewrite Hnil; reflexivity.
  - rewrite Hc. cbn. rewrite Ha. cbn.
    rewrite Nat.eqb_refl. reflexivity.
Qed.

Lemma cleanup_fields (s : Slot) :
  value (cleanup s) = value s /\ precision (cleanup s) = precision s
  /\ node (cleanup s) = node s /\ prevValue (cleanup s) = prevValue s
  /\ next_id (cleanup s) = next_id s /\ now (cleanup s) = now s.
Proof. unfold cleanup. destruct (controls s); cbn; repeat split. Qed.

(** The effect that follows a cleanup starts the only animation of the
    slot, from the ref to the new value. *)
Lemma restart_shape (s : Slot) :
  one_writer s -> node s <> None ->
  let s' := effect (cleanup s) in
  running s'
  = [{| anim_id := next_id s; from := prevValue s; to := value s;
        started := now s; shown_precision := precision s |}]
  /\ controls s' = Some (next_id s)
  /\ node s' = node s /\ prevValue s' = value s /\ value s' = value s
  /\ next_id s' = S (next_id s) /\ now s' = now s.
Proof.
  intros Hw Hn s'. subst s'.
  pose proof (cleanup_running_nil s Hw) as Hr.
  destruct (cleanup_fields s) as (Hv & Hp & Hnode & Hprev & Hid & Hnow).
  unfold effect. rewrite Hnode.
  destruct (node s) as [text |]; [| contradiction].
  cbn. rewrite Hr, Hv, Hp, Hprev, Hid, Hnow. cbn. repeat split.
Qed.

Lemma mount_slot_ok v p : slot_ok (mount flavour v p).
Proof.
  unfold mount, effect, slot_ok, one_writer. cbn.
  split; [discriminate |]. split; [reflexivity |].
  split; [right; eexists; split; reflexivity |].
  repeat constructor.
Qed.

Lemma render_slot_ok v p s : slot_ok s -> slot_ok (render flavour v p s).
Proof.
  intros (Hn & Hprev & Hw & Hids). unfold render.
  set (prec := match p with Some n => n | None => _ end).
  set (r := {| value := v; precision := prec; node := node s;
               prevValue := prevValue s; controls := controls s;
               running := running s; next_id := next_id s;
               now := now s |}).
  destruct (Qeq_bool v (value s) && (prec =? precision s)%nat) eqn:E.
  - apply andb_true_iff in E. destruct E as [E _].
    apply Qeq_bool_iff in E.
    split; [exact Hn |]. split; [cbn; rewrite Hprev, E; reflexivity |].
    split; [exact Hw | exact Hids].
  - destruct (restart_shape r Hw Hn)
      as (Hr & Hc & Hnode & Hpv & Hv & Hid & _).
    unfold slot_ok, one_writer. rewrite Hr, Hc, Hnode, Hpv, Hv, Hid.
    split; [exact Hn |]. split; [reflexivity |].
    split; [right; eexists; split; reflexivity |].
    repeat constructor.
Qed.

Lemma onUpdate_keeps_node a latest text :
  text <> None -> onUpdate flavour a latest text <> None.
Proof. destruct text; cbn; [discriminate | auto]. Qed.

Lemma frame_slot_ok t s : slot_ok s -> slot_ok (frame flavour easeOut t s).
Proof.
  intros (Hn & Hprev & Hw & Hids). unfold frame, slot_ok, one_writer. cbn.
  split; [| split; [exact Hprev | split]].
  - clear Hw Hids. revert Hn. generalize (node s).
    induction (running s) as [| a l IH]; intros text Ht; cbn; auto.
    apply IH, onUpdate_keeps_node, Ht.
  - destruct Hw as [-> | (a & -> & Hc)]; cbn; [left; reflexivity |].
    destruct (negb _); [right; eexists; split; eauto | left; reflexivity].
  - apply Forall_forall. intros a Ha. apply filter_In in Ha.
    rewrite Forall_forall in Hids. apply Hids, Ha.
Qed.

Lemma play_slot_ok evs :
  forall s, slot_ok s -> slot_ok (play flavour easeOut s evs).
Proof.
  induction evs as [| ev evs IH]; intros s Hs; cbn; auto.
  apply IH. destruct ev; cbn; [apply render_slot_ok | apply frame_slot_ok];
    exact Hs.
Qed.

(** C6: a slot has been mounted and has gone through any renders and
    animation frames; a tween is running and a render brings a new
    target.  Then the running tween is gone, exactly one tween is
    running, the new one, it leads from the value passed in by the
    previous render to the new target, and the span still shows what
    was last written to it. *)
Theorem new_target_restarts_tween :
  forall (v0 : Q) (p0 : option nat) (evs : list SlotEvent)
         (v : Q) (p : option nat),
    let s := play flavour easeOut (mount flavour v0 p0) evs in
    running s <> [] ->
    ~ v == value s ->
    let s' := render flavour v p s in
    exists a,
      running s' = [a]
      /\ controls s' = Some (anim_id a)
      /\ from a == value s /\ from a = prevValue s
      /\ to a = v
      /\ started a = now s
      /\ Forall (fun b => ~ In b (running s')) (running s)
      /\ node s' = node s.
Proof.
  intros v0 p0 evs v p s Hrun Hnew s'.
  destruct (play_slot_ok evs _ (mount_slot_ok v0 p0))
    as (Hn & Hprev & Hw & Hids).
  fold s in Hn, Hprev, Hw, Hids.
  subst s'. unfold render.
  set (prec := match p with Some n => n | None => _ end).
  set (r := {| value := v; precision := prec; node := node s;
               prevValue := prevValue s; controls := controls s;
               running := running s; next_id := next_id s;
               now := now s |}).
  assert (E : Qeq_bool v (value s) = false).
  { destruct (Qeq_bool v (value s)) eqn:E; [| reflexivity].
    apply Qeq_bool_iff in E. contradiction. }
  rewrite E. cbn [andb].
  destruct (restart_shape r Hw Hn) as (Hr & Hc & Hnode & _).
  eexists. split; [exact Hr |]. cbn.
  split; [exact Hc |]. split; [exact Hprev |]. split; [reflexivity |].
  split; [reflexivity |]. split; [reflexivity |].
  split; [| exact Hnode].
  rewrite Hr. apply Forall_forall. intros b Hb [Heq | []].
  rewrite Forall_forall in Hids. specialize (Hids b Hb).
  subst b. cbn in Hids. lia.
Qed.
End Restart.

Section RestartExample.
Import AnimatedNumber Fixture.
Local Open Scope Q_scope.

Lemma new_target_restarts_tween_witness :
  let s := play dashboard Tween.quadOut (mount dashboard 0 (Some 2%nat))
             halfway in
  running s <> []
  /\ ~ 20 == value s
  /\ node s = Some "7.50"%string
  /\ exists a,
       running (render dashboard 20 (Some 2%nat) s) = [a]
       /\ controls (render dashboard 20 (Some 2%nat) s) = Some (anim_id a)
       /\ from a == value s /\ from a = prevValue s
       /\ to a = 20
       /\ started a = now s
       /\ Forall (fun b => ~ In b (running (render dashboard 20
                                              (Some 2%nat) s)))
            (running s)
       /\ node (render dashboard 20 (Some 2%nat) s) = node s.
Proof.
  cbv zeta.
  assert (Hrun : running (play dashboard Tween.quadOut
                            (mount dashboard 0 (Some 2%nat)) halfway)
                 <> []) by discriminate.
  assert (Hnew : ~ 20 == value (play dashboard Tween.quadOut
                                  (mount dashboard 0 (Some 2%nat))
                                  halfway)) by discriminate.
  split; [exact Hrun | split; [exact Hnew | split; [reflexivity |]]].
  exact (new_target_restarts_tween dashboard Tween.quadOut 0
           (Some 2%nat) halfway 20 (Some 2%nat) Hrun Hnew).
Defined.

(** The restarted tween starts from 10, the target requested before,
    although the span shows 7.50. *)
Example restart_ignores_rendered_value :
  let s := play dashboard Tween.quadOut (mount dashboard 0 (Some 2%nat))
             halfway in
  node s = Some "7.50"%string
  /\ map from (running (render dashboard 20 (Some 2%nat) s)) = [10]
  /\ map to (running (render dashboard 20 (Some 2%nat) s)) = [20].
Proof. repeat split. Qed.
End RestartExample.

(** * Further properties *)

(** ** Wallet connection, path by path *)

Section ConnectionPaths.
Import App Fixture.

(** However the wallet and the provider answer, [connectWallet] returns
    normally with the busy flag cleared and the TVL untouched, and it
    either connects in full (address, stake contract on the signer that
    was obtained, idle status) or leaves address and contract as they
    were and shows an error. *)
Theorem connectWallet_all_or_nothing :
  forall (wallets : list string) (talismanEth : bool) (w : nat -> Answer)
         (n : nat) (s : State),
    let '(s', tr, res) :=
      exec apply (connectWallet wallets talismanEth) w n s in
    res = Ok tt
    /\ loading s' = false
    /\ tvl s' = tvl s
    /\ ((exists address signer,
            userAddress s' = Some address
            /\ inzoStakeContract s'
               = Some {| contract_address := INZO_STAKE_ADDRESS;
                         contract_signer := signer |}
            /\ status s' = idle
            /\ In (Settle (GetAddress signer) true) tr)
        \/ (userAddress s' = userAddress s
            /\ inzoStakeContract s' = inzoStakeContract s
            /\ type (status s') = "error")).
Proof.
  intros wallets te w n s.
  unfold connectWallet, switch_network.
  destruct (existsb (String.eqb "talisman") wallets); cbn [negb throw_if];
    [| cbn; repeat split; right; repeat split].
  destruct te;
    repeat first
      [ progress cbn
      | match goal with
        | |- context [(?a =? CORRECT_CHAIN_ID)%Z] =>
            destruct (a =? CORRECT_CHAIN_ID)%Z
        | |- context [code_is ?e 4902] => destruct (code_is e 4902)
        | |- context [w ?k ?r] =>
            let E := fresh "Eans" in destruct (w k r) eqn:E
        end ];
    (split; [reflexivity |]); (split; [reflexivity |]);
    (split; [reflexivity |]);
    first [ right; repeat split; reflexivity
          | left; do 2 eexists; repeat split; cbn; tauto ].
Qed.

(** Without the Talisman extension nothing is asked of anybody: the
    attempt ends at once with the install hint as the error. *)
Theorem connectWallet_without_wallet :
  forall (wallets : list string) (talismanEth : bool) (w : nat -> Answer)
         (n : nat) (s : State),
    existsb (String.eqb "talisman") wallets = false ->
    let '(s', tr, _) := exec apply (connectWallet wallets talismanEth) w n s in
    tr = []
    /\ status s'
       = error "Talisman wallet not found. Please install it."
    /\ userAddress s' = userAddress s
    /\ loading s' = false.
Proof.
  intros wallets te w n s Hw. unfold connectWallet. rewrite Hw. cbn.
  repeat split.
Qed.

Lemma connectWallet_without_wallet_witness :
  existsb (String.eqb "talisman") ["polkadot-js"; "subwallet-js"] = false
  /\ (let '(s', tr, _) :=
        exec apply (connectWallet ["polkadot-js"; "subwallet-js"] true)
          (always (fulfil 1 0 0%nat)) 0 initial_state in
      tr = []
      /\ status s'
         = error "Talisman wallet not found. Please install it."
      /\ userAddress s' = userAddress initial_state
      /\ loading s' = false).
Proof.
  assert (H : existsb (String.eqb "talisman")
                ["polkadot-js"; "subwallet-js"] = false) by reflexivity.
  split; [exact H |].
  exact (connectWallet_without_wallet ["polkadot-js"; "subwallet-js"] true
           (always (fulfil 1 0 0%nat)) 0%nat initial_state H).
Defined.

(** When the wallet is enabled but [window.talismanEth] is missing, the
    enable request is the only one made and the provider error is
    shown. *)
Theorem connectWallet_without_provider :
  forall (wallets : list string) (w : nat -> Answer) (n : nat) (s : State),
    existsb (String.eqb "talisman") wallets = true ->
    w n (Enable "Inzo Finance") = Ok tt ->
    let '(s', tr, _) := exec apply (connectWallet wallets false) w n s in
    tr = [Issue (Enable "Inzo Finance"); Settle (Enable "Inzo Finance") true]
    /\ status s' = error "Talisman EVM provider not found."
    /\ userAddress s' = userAddress s
    /\ loading s' = false.
Proof.
  intros wallets w n s Hw He. unfold connectWallet. rewrite Hw. cbn.
  rewrite He. cbn. repeat split.
Qed.

Lemma connectWallet_without_provider_witness :
  existsb (String.eqb "talisman") ["talisman"] = true
  /\ always (fulfil 1 0 0%nat) 0%nat (Enable "Inzo Finance") = Ok tt
  /\ (let '(s', tr, _) :=
        exec apply (connectWallet ["talisman"] false)
          (always (fulfil 1 0 0%nat)) 0 initial_state in
      tr = [Issue (Enable "Inzo Finance");
            Settle (Enable "Inzo Finance") true]
      /\ status s' = error "Talisman EVM provider not found."
      /\ userAddress s' = userAddress initial_state
      /\ loading s' = false).
Proof.
  assert (H : existsb (String.eqb "talisman") ["talisman"] = true)
    by reflexivity.
  assert (He : always (fulfil 1 0 0%nat) 0%nat (Enable "Inzo Finance")
               = Ok tt) by reflexivity.
  split; [exact H | split; [exact He |]].
  exact (connectWallet_without_provider ["talisman"]
           (always (fulfil 1 0 0%nat)) 0%nat initial_state H He).
Defined.

(** A request the wallet refuses before the network step shows the
    wallet's own message: here the user declining to authorise the
    application. *)
Theorem connectWallet_enable_refused :
  forall (wallets : list string) (talismanEth : bool) (w : nat -> Answer)
         (n : nat) (s : State) (e : JsError),
    existsb (String.eqb "talisman") wallets = true ->
    w n (Enable "Inzo Finance") = Err e ->
    let '(s', tr, _) := exec apply (connectWallet wallets talismanEth) w n s in
    tr = [Issue (Enable "Inzo Finance"); Settle (Enable "Inzo Finance") false]
    /\ status s' = error (err_message e)
    /\ userAddress s' = userAddress s
    /\ loading s' = false.
Proof.
  intros wallets te w n s e Hw He. unfold connectWallet. rewrite Hw. cbn.
  rewrite He. cbn. repeat split.
Qed.

Lemma connectWallet_enable_refused_witness :
  existsb (String.eqb "talisman") ["talisman"] = true
  /\ always (Scenario.enable_fails Scenario.user_rejected) 0%nat
       (Enable "Inzo Finance") = Err Scenario.user_rejected
  /\ (let '(s', tr, _) :=
        exec apply (connectWallet ["talisman"] true)
          (always (Scenario.enable_fails Scenario.user_rejected)) 0
          initial_state in
      tr = [Issue (Enable "Inzo Finance");
            Settle (Enable "Inzo Finance") false]
      /\ status s' = error (err_message Scenario.user_rejected)
      /\ userAddress s' = userAddress initial_state
      /\ loading s' = false).
Proof.
  assert (H : existsb (String.eqb "talisman") ["talisman"] = true)
    by reflexivity.
  assert (He : always (Scenario.enable_fails Scenario.user_rejected) 0%nat
                 (Enable "Inzo Finance") = Err Scenario.user_rejected)
    by reflexivity.
  split; [exact H | split; [exact He |]].
  exact (connectWallet_enable_refused ["talisman"] true
           (always (Scenario.enable_fails Scenario.user_rejected)) 0%nat
           initial_state Scenario.user_rejected H He).
Defined.

(** On the target chain the connection asks for exactly four things, in
    order: enable, network, signer, address; no switch or add request is
    made, and the session ends up connected. *)
Theorem connectWallet_on_target_chain :
  forall (wallets : list string) (w : nat -> Answer) (n : nat) (s : State)
         (signer : Signer) (address : string),
    existsb (String.eqb "talisman") wallets = true ->
    w n (Enable "Inzo Finance") = Ok tt ->
    w (S n) GetNetwork = Ok CORRECT_CHAIN_ID ->
    w (S (S n)) GetSigner = Ok signer ->
    w (S (S (S n))) (GetAddress signer) = Ok address ->
    let '(s', tr, _) := exec apply (connectWallet wallets true) w n s in
    tr = [Issue (Enable "Inzo Finance"); Settle (Enable "Inzo Finance") true;
          Issue GetNetwork; Settle GetNetwork true;
          Issue GetSigner; Settle GetSigner true;
          Issue (GetAddress signer); Settle (GetAddress signer) true]
    /\ userAddress s' = Some address
    /\ inzoStakeContract s'
       = Some {| contract_address := INZO_STAKE_ADDRESS;
                 contract_signer := signer |}
    /\ status s' = idle
    /\ loading s' = false.
Proof.
  intros wallets w n s signer address Hw He Hn Hs Ha.
  unfold connectWallet. rewrite Hw. cbn. rewrite He. cbn. rewrite Hn. cbn.
  rewrite Hs. cbn. rewrite Ha. cbn. repeat split.
Qed.

Lemma connectWallet_on_target_chain_witness :
  let '(s', tr, _) :=
    exec apply (connectWallet ["talisman"] true)
      (always Scenario.on_target) 0 initial_state in
  tr = [Issue (Enable "Inzo Finance"); Settle (Enable "Inzo Finance") true;
        Issue GetNetwork; Settle GetNetwork true;
        Issue GetSigner; Settle GetSigner true;
        Issue (GetAddress signer0); Settle (GetAddress signer0) true]
  /\ userAddress s' = Some user0
  /\ inzoStakeContract s' = Some pool0
  /\ status s' = idle
  /\ loading s' = false.
Proof.
  exact (connectWallet_on_target_chain ["talisman"]
           (always Scenario.on_target) 0%nat initial_state signer0 user0
           eq_refl eq_refl eq_refl eq_refl eq_refl).
Defined.

(** When the wallet does not know the target chain (code 4902) and then
    accepts to add it, the connection goes on: signer and address are
    asked for only after the add request was fulfilled, and the session
    ends up connected. *)
Theorem connectWallet_adds_chain_then_connects :
  forall (wallets : list string) (w : nat -> Answer) (n : nat) (s : State)
         (chain : Z) (e : JsError) (signer : Signer) (address : string),
    existsb (String.eqb "talisman") wallets = true ->
    w n (Enable "Inzo Finance") = Ok tt ->
    w (S n) GetNetwork = Ok chain ->
    chain <> CORRECT_CHAIN_ID ->
    w (S (S n)) switch_request = Err e ->
    code_is e 4902 = true ->
    w (S (S (S n))) add_request = Ok tt ->
    w (S (S (S (S n)))) GetSigner = Ok signer ->
    w (S (S (S (S (S n))))) (GetAddress signer) = Ok address ->
    let '(s', tr, _) := exec apply (connectWallet wallets true) w n s in
    tr = until_switch
         ++ [Settle switch_request false;
             Issue add_request; Settle add_request true;
             Issue GetSigner; Settle GetSigner true;
             Issue (GetAddress signer); Settle (GetAddress signer) true]
    /\ userAddress s' = Some address
    /\ inzoStakeContract s'
       = Some {| contract_address := INZO_STAKE_ADDRESS;
                 contract_signer := signer |}
    /\ status s' = idle
    /\ loading s' = false.
Proof.
  intros wallets w n s chain e signer address Hw He Hn Hc Hsw Hcode Hadd
         Hs Ha.
  unfold connectWallet, switch_network, switch_request, add_request in *.
  rewrite Hw. cbn. rewrite He. cbn. rewrite Hn. cbn.
  destruct (chain =? CORRECT_CHAIN_ID)%Z eqn:E;
    [apply Z.eqb_eq in E; contradiction |].
  cbn. change (toQuantity CORRECT_CHAIN_ID) with "0x190f1b45" in *.
  change (chainId networkConfig) with "0x190f1b45" in Hsw.
  rewrite Hsw. cbn. rewrite Hcode. cbn.
  rewrite Hadd. cbn. rewrite Hs. cbn. rewrite Ha. cbn. repeat split.
Qed.

Lemma connectWallet_adds_chain_then_connects_witness :
  let '(s', tr, _) :=
    exec apply (connectWallet ["talisman"] true)
      (always (switch_fails 1 unknown_chain)) 0 initial_state in
  tr = until_switch
       ++ [Settle switch_request false;
           Issue add_request; Settle add_request true;
           Issue GetSigner; Settle GetSigner true;
           Issue (GetAddress signer0); Settle (GetAddress signer0) true]
  /\ userAddress s' = Some user0
  /\ inzoStakeContract s' = Some pool0
  /\ status s' = idle
  /\ loading s' = false.
Proof.
  assert (Hc : 1%Z <> CORRECT_CHAIN_ID) by discriminate.
  exact (connectWallet_adds_chain_then_connects ["talisman"]
           (always (switch_fails 1 unknown_chain)) 0%nat initial_state
           1%Z unknown_chain signer0 user0
           eq_refl eq_refl eq_refl Hc eq_refl eq_refl eq_refl eq_refl
           eq_refl).
Defined.

(** When the wallet does not know the target chain and the user then
    declines to add it, the error shown is the wallet's message for that
    refusal, not the fixed network-switch text, and nothing else is
    asked. *)
Theorem connectWallet_add_refused :
  forall (wallets : list string) (w : nat -> Answer) (n : nat) (s : State)
         (chain : Z) (e e' : JsError),
    existsb (String.eqb "talisman") wallets = true ->
    w n (Enable "Inzo Finance") = Ok tt ->
    w (S n) GetNetwork = Ok chain ->
    chain <> CORRECT_CHAIN_ID ->
    w (S (S n)) switch_request = Err e ->
    code_is e 4902 = true ->
    w (S (S (S n))) add_request = Err e' ->
    let '(s', tr, _) := exec apply (connectWallet wallets true) w n s in
    tr = until_switch
         ++ [Settle switch_request false;
             Issue add_request; Settle add_request false]
    /\ status s' = error (err_message e')
    /\ userAddress s' = userAddress s
    /\ inzoStakeContract s' = inzoStakeContract s
    /\ loading s' = false.
Proof.
  intros wallets w n s chain e e' Hw He Hn Hc Hsw Hcode Hadd.
  unfold connectWallet, switch_network, switch_request, add_request in *.
  rewrite Hw. cbn. rewrite He. cbn. rewrite Hn. cbn.
  destruct (chain =? CORRECT_CHAIN_ID)%Z eqn:E;
    [apply Z.eqb_eq in E; contradiction |].
  cbn. change (toQuantity CORRECT_CHAIN_ID) with "0x190f1b45" in *.
  change (chainId networkConfig) with "0x190f1b45" in Hsw.
  rewrite Hsw. cbn. rewrite Hcode. cbn.
  rewrite Hadd. cbn. repeat split.
Qed.

Lemma connectWallet_add_refused_witness :
  let '(s', tr, _) :=
    exec apply (connectWallet ["talisman"] true)
      (always (Scenario.add_fails 1 unknown_chain Scenario.user_rejected))
      0 initial_state in
  tr = until_switch
       ++ [Settle switch_request false;
           Issue add_request; Settle add_request false]
  /\ status s' = error "User rejected the request."
  /\ userAddress s' = None
  /\ inzoStakeContract s' = None
  /\ loading s' = false.
Proof.
  assert (Hc : 1%Z <> CORRECT_CHAIN_ID) by discriminate.
  exact (connectWallet_add_refused ["talisman"]
           (always (Scenario.add_fails 1 unknown_chain
                      Scenario.user_rejected))
           0%nat initial_state 1%Z unknown_chain Scenario.user_rejected
           eq_refl eq_refl eq_refl Hc eq_refl eq_refl eq_refl).
Defined.
End ConnectionPaths.

(** ** The App session *)

Section SessionInvariant.
Import App Session.

Lemma TvlOnly_try_catch {A} (p : Prog Effect A) h :
  TvlOnly p -> (forall e, TvlOnly (h e)) -> TvlOnly (try_catch p h).
Proof. intros Hp Hh. induction Hp; cbn; try constructor; auto. Qed.

Lemma fetchTVL_tvl_only pool : TvlOnly (fetchTVL pool).
Proof.
  unfold fetchTVL. destruct pool as [c |]; [| constructor].
  apply TvlOnly_try_catch; [| intros; constructor].
  cbn. constructor. intros [v | e]; cbn; repeat constructor.
Qed.

(** [connectWallet] sets the busy flag first; what follows has the shape
    of a connection attempt. *)
Lemma connectWallet_shape wallets te :
  exists k,
    connectWallet wallets te = Update (SetLoading true) k /\ Connecting k.
Proof.
  unfold connectWallet, switch_network. cbn [bind setLoading setStatus].
  eexists. split; [reflexivity |].
  apply Connecting_status.
  destruct (existsb (String.eqb "talisman") wallets), te; cbn;
    repeat first
      [ apply Connecting_end
      | apply Connecting_done
      | apply Connecting_status
      | apply Connecting_Await; intros [? | ?]; cbn
      | match goal with
        | |- context [(?a =? CORRECT_CHAIN_ID)%Z] =>
            destruct (a =? CORRECT_CHAIN_ID)%Z; cbn
        | |- context [code_is ?e 4902] => destruct (code_is e 4902); cbn
        end ].
Qed.

Lemma run_tvl_only (p : Prog Effect unit) :
  TvlOnly p ->
  forall s s' out,
    run apply p s = (s', out) ->
    userAddress s' = userAddress s
    /\ inzoStakeContract s' = inzoStakeContract s
    /\ loading s' = loading s
    /\ status s' = status s
    /\ match out with
       | Parked pend => forall a, TvlOnly (resume pend a)
       | Done _ => True
       end.
Proof.
  induction 1 as [a | e | n k Hk IH | r k Hk _ | qs k Hk _];
    intros s s' out Hrun; cbn in Hrun.
  - injection Hrun as <- <-. auto.
  - injection Hrun as <- <-. auto.
  - destruct (IH _ _ _ Hrun) as (Ha & Hc & Hl & Hs & Hout).
    repeat split; assumption.
  - injection Hrun as <- <-. repeat split; auto. intros a. apply Hk.
  - injection Hrun as <- <-. repeat split; auto. intros a. apply Hk.
Qed.

Lemma run_connecting (p : Prog Effect unit) :
  Connecting p ->
  forall s s' out,
    run apply p s = (s', out) ->
    tvl s' = tvl s
    /\ match out with
       | Parked pend =>
           userAddress s' = userAddress s
           /\ inzoStakeContract s' = inzoStakeContract s
           /\ loading s' = loading s
           /\ forall a, Connecting (resume pend a)
       | Done _ =>
           loading s' = false
           /\ ((userAddress s' = userAddress s
                /\ inzoStakeContract s' = inzoStakeContract s)
               \/ exists address signer,
                   userAddress s' = Some address
                   /\ inzoStakeContract s'
                      = Some {| contract_address := INZO_STAKE_ADDRESS;
                                contract_signer := signer |})
       end.
Proof.
  induction 1 as [| address signer st | st k Hk IH | r k Hk _ | qs k Hk _];
    intros s s' out Hrun; cbn in Hrun.
  - injection Hrun as <- <-. cbn. auto.
  - injection Hrun as <- <-. cbn. split; [reflexivity |].
    split; [reflexivity |]. right. eauto.
  - destruct (IH _ _ _ Hrun) as (Ht & Hout). split; [exact Ht |].
    exact Hout.
  - injection Hrun as <- <-. repeat split; auto. intros a. apply Hk.
  - injection Hrun as <- <-. repeat split; auto. intros a. apply Hk.
Qed.

Lemma connecting_snoc (l : list Task) (t : Task) :
  List.length (filter is_connect_task (l ++ [t]))
  = (List.length (filter is_connect_task l)
     + if is_connect_task t then 1 else 0)%nat.
Proof.
  rewrite filter_app, length_app. cbn.
  destruct (is_connect_task t); reflexivity.
Qed.

Lemma connecting_remove (l : list Task) :
  forall i t,
    nth_error l i = Some t ->
    List.length (filter is_connect_task l)
    = (List.length (filter is_connect_task (StakingCard.remove_nth i l))
       + if is_connect_task t then 1 else 0)%nat.
Proof.
  induction l as [| x l IH]; intros [| i] t H; cbn in H; try discriminate.
  - injection H as ->. cbn. destruct (is_connect_task t); cbn; lia.
  - cbn. specialize (IH i t H).
    destruct (is_connect_task x); cbn; lia.
Qed.

Lemma Forall_remove (P : Task -> Prop) (l : list Task) :
  Forall P l -> forall i, Forall P (StakingCard.remove_nth i l).
Proof.
  induction 1 as [| x l Hx Hl IH]; intros [| i]; cbn; auto.
Qed.

Lemma connected_congr (s s' : State) :
  userAddress s' = userAddress s -> connected s' = connected s.
Proof. unfold connected. intros ->. reflexivity. Qed.

Lemma has_contract_congr (s s' : State) :
  userAddress s' = userAddress s ->
  inzoStakeContract s' = inzoStakeContract s ->
  has_contract s -> has_contract s'.
Proof.
  unfold has_contract. intros Ha Hc H. rewrite (connected_congr _ _ Ha), Hc.
  exact H.
Qed.

(** Polling the TVL keeps the invariant. *)
Lemma spawn_tvl (p : Prog Effect unit) (c : Session) :
  TvlOnly p -> session_ok c -> session_ok (spawn TvlPoll p c).
Proof.
  intros Hp (Htasks & Hcount & Hbusy & Hcon). unfold spawn.
  destruct (run apply p (app c)) as [s out] eqn:Hrun.
  destruct (run_tvl_only p Hp _ _ _ Hrun) as (Ha & Hc & Hl & _ & Hout).
  destruct out as [res | pend]; unfold session_ok, connecting in *; cbn.
  - rewrite Hl, (connected_congr _ _ Ha).
    repeat split; auto. eapply has_contract_congr; eauto.
  - rewrite Hl, (connected_congr _ _ Ha), connecting_snoc. cbn.
    split; [apply Forall_app; split; auto |].
    split; [lia |]. split; [exact Hbusy |].
    eapply has_contract_congr; eauto.
Qed.

(** Continuing a connection attempt keeps the invariant. *)
Lemma spawn_connecting (p : Prog Effect unit) (c : Session) :
  Connecting p ->
  Forall task_ok (tasks c) -> connecting c = 0%nat ->
  loading (app c) = true -> connected (app c) = false ->
  has_contract (app c) ->
  session_ok (spawn Connect p c).
Proof.
  intros Hp Htasks Hcount Hbusy Hnot Hcon. unfold spawn.
  destruct (run apply p (app c)) as [s out] eqn:Hrun.
  destruct (run_connecting p Hp _ _ _ Hrun) as (_ & Hout).
  destruct out as [res | pend]; unfold session_ok, connecting in *; cbn.
  - destruct Hout as [Hl Hres]. rewrite Hl.
    repeat split; auto; [discriminate |].
    destruct Hres as [[Ha Hc] | (address & signer & Ha & Hc)].
    + eapply has_contract_congr; eauto.
    + intros _. eauto.
  - destruct Hout as (Ha & Hc & Hl & Hk).
    rewrite Hl, Hbusy, (connected_congr _ _ Ha), connecting_snoc. cbn.
    split; [apply Forall_app; split; auto |].
    split; [lia |]. split; [intros _; exact Hnot |].
    eapply has_contract_congr; eauto.
Qed.

Lemma handle_session_ok (ev : SessionEvent) (c : Session) :
  session_ok c -> session_ok (handle ev c).
Proof.
  intros Hc. destruct ev as [wallets te | i a |]; cbn [handle].
  - unfold connect_enabled.
    destruct (connected (app c)) eqn:Hcon; cbn [negb andb]; [exact Hc |].
    destruct (loading (app c)) eqn:Hl; cbn [negb]; [exact Hc |].
    destruct Hc as (Htasks & Hcount & Hbusy & Hhas). rewrite Hl in Hcount.
    destruct (connectWallet_shape wallets te) as (k & -> & Hk).
    change (spawn Connect (Update (SetLoading true) k) c)
      with (spawn Connect k
              {| app := apply (SetLoading true) (app c); tasks := tasks c;
                 trace := trace c |}).
    apply spawn_connecting; auto.
  - destruct (nth_error (tasks c) i) as [t |] eqn:Hnth; [| exact Hc].
    destruct Hc as (Htasks & Hcount & Hbusy & Hhas).
    assert (Ht : task_ok t).
    { rewrite Forall_forall in Htasks. apply Htasks.
      eapply nth_error_In; eauto. }
    pose proof (connecting_remove _ _ _ Hnth) as Hrem.
    unfold connecting in Hcount. rewrite Hrem in Hcount.
    set (c' := {| app := app c;
                  tasks := StakingCard.remove_nth i (tasks c);
                  trace := trace c ++ settled (pending t) a |}).
    assert (Htasks' : Forall task_ok (tasks c'))
      by (apply Forall_remove; exact Htasks).
    unfold task_ok in Ht.
    assert (Hw : is_connect_task t
                 = match origin t with Connect => true | _ => false end)
      by reflexivity.
    destruct (origin t) eqn:Ho; rewrite Hw in Hcount.
    + assert (Hl : loading (app c) = true)
        by (destruct (loading (app c)); [reflexivity | lia]).
      apply spawn_connecting; auto.
      unfold connecting. cbn. rewrite Hl in Hcount. lia.
    + apply spawn_tvl; auto.
      repeat split; auto. unfold connecting. cbn. lia.
  - apply spawn_tvl; auto. apply fetchTVL_tvl_only.
Qed.

Lemma step_session_ok (c : Session) (ev : SessionEvent) :
  session_ok c -> session_ok (step c ev).
Proof.
  intros Hc. unfold step, rerender.
  pose proof (handle_session_ok ev c Hc) as H.
  destruct (_ && _); [exact H |].
  destruct (connected (app (handle ev c))); [| exact H].
  apply spawn_tvl; auto. apply fetchTVL_tvl_only.
Qed.

Lemma mount_session_ok : session_ok mount.
Proof.
  repeat split; try constructor. intros H. discriminate H.
Qed.

Lemma steps_session_ok (evs : list SessionEvent) :
  forall c, session_ok c -> session_ok (steps c evs).
Proof.
  induction evs as [| ev evs IH]; intros c Hc; cbn; auto.
  apply IH, step_session_ok, Hc.
Qed.

Lemma address_eqb_refl (a : option string) : address_eqb a a = true.
Proof. destruct a; cbn; auto. apply String.eqb_refl. Qed.

(** However the session got where it is, at most one connection attempt
    is in flight, one is in flight exactly while the busy flag is set,
    and a click on the connect button does nothing while the flag is set
    or once an address is connected. *)
Theorem session_connects_once_at_a_time :
  forall (evs : list SessionEvent),
    let c := steps mount evs in
    (connecting c <= 1)%nat
    /\ (connecting c = 1%nat <-> loading (app c) = true)
    /\ (loading (app c) = true \/ connected (app c) = true ->
        forall wallets talismanEth,
          step c (ClickConnect wallets talismanEth) = c).
Proof.
  intros evs c.
  destruct (steps_session_ok evs _ mount_session_ok) as (_ & Hcount & _).
  fold c in Hcount.
  split; [| split; [split |]].
  - rewrite Hcount. destruct (loading _); lia.
  - rewrite Hcount. destruct (loading _); [reflexivity | discriminate].
  - intros Hl. rewrite Hcount, Hl. reflexivity.
  - intros Hoff wallets te. unfold step, rerender. cbn [handle].
    assert (E : connect_enabled (app c) = false).
    { unfold connect_enabled. destruct Hoff as [-> | ->];
        [apply andb_false_r | reflexivity]. }
    rewrite E, address_eqb_refl, contract_eqb_refl.
    reflexivity.
Qed.

Lemma session_connects_once_at_a_time_witness :
  loading (app (steps mount Scenario.almost_connected)) = true
  /\ step (steps mount Scenario.almost_connected)
       (ClickConnect ["talisman"] true)
     = steps mount Scenario.almost_connected.
Proof.
  assert (H : loading (app (steps mount Scenario.almost_connected)) = true)
    by reflexivity.
  split; [exact H |].
  exact (proj2 (proj2 (session_connects_once_at_a_time
                         Scenario.almost_connected))
           (or_introl H) ["talisman"] true).
Defined.

(** In every session, a connected address comes with the stake contract
    on the constant address. *)
Theorem connected_session_has_contract :
  forall (evs : list SessionEvent),
    let c := steps mount evs in
    connected (app c) = true ->
    exists signer,
      inzoStakeContract (app c)
      = Some {| contract_address := INZO_STAKE_ADDRESS;
                contract_signer := signer |}.
Proof.
  intros evs c.
  destruct (steps_session_ok evs _ mount_session_ok) as (_ & _ & _ & Hhas).
  exact Hhas.
Qed.

Lemma connected_session_has_contract_witness :
  connected (app (steps mount Scenario.connection)) = true
  /\ exists signer,
       inzoStakeContract (app (steps mount Scenario.connection))
       = Some {| contract_address := INZO_STAKE_ADDRESS;
                 contract_signer := signer |}.
Proof.
  assert (H : connected (app (steps mount Scenario.connection)) = true)
    by reflexivity.
  split; [exact H |].
  exact (connected_session_has_contract Scenario.connection H).
Defined.

Lemma spawn_tvl_fields (p : Prog Effect unit) (c : Session) :
  TvlOnly p ->
  userAddress (app (spawn TvlPoll p c)) = userAddress (app c)
  /\ inzoStakeContract (app (spawn TvlPoll p c)) = inzoStakeContract (app c)
  /\ loading (app (spawn TvlPoll p c)) = loading (app c)
  /\ status (app (spawn TvlPoll p c)) = status (app c).
Proof.
  intros Hp. unfold spawn.
  destruct (run apply p (app c)) as [s out] eqn:Hrun.
  destruct (run_tvl_only p Hp _ _ _ Hrun) as (Ha & Hc & Hl & Hs & _).
  destruct out; cbn; auto.
Qed.

Lemma step_connected (c : Session) (ev : SessionEvent) :
  session_ok c -> connected (app c) = true ->
  userAddress (app (step c ev)) = userAddress (app c)
  /\ inzoStakeContract (app (step c ev)) = inzoStakeContract (app c)
  /\ loading (app (step c ev)) = loading (app c)
  /\ status (app (step c ev)) = status (app c).
Proof.
  intros (Htasks & Hcount & Hbusy & _) Hcon.
  assert (Hl : loading (app c) = false).
  { destruct (loading (app c)); [| reflexivity].
    rewrite Hbusy in Hcon by reflexivity. discriminate. }
  rewrite Hl in Hcount.
  assert (Hh : userAddress (app (handle ev c)) = userAddress (app c)
               /\ inzoStakeContract (app (handle ev c))
                  = inzoStakeContract (app c)
               /\ loading (app (handle ev c)) = loading (app c)
               /\ status (app (handle ev c)) = status (app c)).
  { destruct ev as [wallets te | i a |]; cbn [handle].
    - unfold connect_enabled. rewrite Hcon. cbn. auto.
    - destruct (nth_error (tasks c) i) as [t |] eqn:Hnth; [| auto].
      pose proof (connecting_remove _ _ _ Hnth) as Hrem.
      unfold connecting in Hcount. rewrite Hrem in Hcount.
      assert (Ht : task_ok t).
      { rewrite Forall_forall in Htasks. apply Htasks.
        eapply nth_error_In; eauto. }
      unfold task_ok in Ht.
      assert (Hw : is_connect_task t
                   = match origin t with Connect => true | _ => false end)
        by reflexivity.
      destruct (origin t); rewrite Hw in Hcount; [lia |].
      apply (spawn_tvl_fields _
               {| app := app c; tasks := StakingCard.remove_nth i (tasks c);
                  trace := trace c ++ settled (pending t) a |}), Ht.
    - apply spawn_tvl_fields, fetchTVL_tvl_only. }
  unfold step, rerender.
  destruct (_ && _); [exact Hh |].
  destruct (connected (app (handle ev c))); [| exact Hh].
  destruct (spawn_tvl_fields (fetchTVL_now (handle ev c)) (handle ev c)
              (fetchTVL_tvl_only _)) as (Ha & Hc & Hl' & Hs).
  destruct Hh as (Ha' & Hc' & Hl'' & Hs').
  repeat split; congruence.
Qed.

(** Once a session is connected nothing that happens later changes its
    address, its contract or its status, and the busy flag stays
    clear. *)
Theorem connected_session_stays_connected :
  forall (evs later : list SessionEvent),
    let c := steps mount evs in
    connected (app c) = true ->
    let c' := steps c later in
    userAddress (app c') = userAddress (app c)
    /\ inzoStakeContract (app c') = inzoStakeContract (app c)
    /\ status (app c') = status (app c)
    /\ loading (app c') = false.
Proof.
  intros evs later c Hcon.
  pose proof (steps_session_ok evs _ mount_session_ok) as Hok. fold c in Hok.
  assert (Hl : loading (app c) = false).
  { destruct Hok as (_ & _ & Hbusy & _).
    destruct (loading (app c)); [| reflexivity].
    rewrite Hbusy in Hcon by reflexivity. discriminate. }
  rewrite <- Hl. clearbody c. clear Hl.
  revert c Hok Hcon. induction later as [| ev later IH]; intros c Hok Hcon.
  - cbn. auto.
  - cbn [steps fold_left].
    destruct (step_connected c ev Hok Hcon) as (Ha & Hc & Hl & Hs).
    assert (Hcon' : connected (app (step c ev)) = true)
      by (rewrite (connected_congr _ _ Ha); exact Hcon).
    destruct (IH (step c ev) (step_session_ok c ev Hok) Hcon')
      as (Ha' & Hc' & Hs' & Hl').
    change (fold_left step later (step c ev)) with (steps (step c ev) later).
    repeat split; congruence.
Qed.

Lemma connected_session_stays_connected_witness :
  connected (app (steps mount Scenario.connection)) = true
  /\ (let c := steps mount Scenario.connection in
      let c' := steps c Scenario.afterwards in
      userAddress (app c') = userAddress (app c)
      /\ inzoStakeContract (app c') = inzoStakeContract (app c)
      /\ status (app c') = status (app c)
      /\ loading (app c') = false).
Proof.
  assert (H : connected (app (steps mount Scenario.connection)) = true)
    by reflexivity.
  split; [exact H |].
  exact (connected_session_stays_connected Scenario.connection
           Scenario.afterwards H).
Defined.

Lemma address_eqb_eq (a b : option string) :
  address_eqb a b = true -> a = b.
Proof.
  destruct a, b; cbn; try discriminate; auto.
  intros H. apply String.eqb_eq in H. congruence.
Qed.

(** The step that completes a connection also starts the first TVL
    poll: the last thing it does is issue [totalStaked()] on the new
    contract. *)
Theorem connection_starts_tvl_poll :
  forall (evs : list SessionEvent) (ev : SessionEvent),
    let c := steps mount evs in
    connected (app c) = false ->
    connected (app (step c ev)) = true ->
    exists pool earlier,
      inzoStakeContract (app (step c ev)) = Some pool
      /\ trace (step c ev) = earlier ++ [Issue (Read (TotalStaked pool))].
Proof.
  intros evs ev c Hoff Hon.
  pose proof (steps_session_ok evs _ mount_session_ok) as Hok. fold c in Hok.
  pose proof (handle_session_ok ev c Hok) as (_ & _ & _ & Hhas).
  unfold step, rerender in *.
  destruct (address_eqb _ _ && _) eqn:Edeps.
  - apply andb_true_iff in Edeps. destruct Edeps as [Ea _].
    apply address_eqb_eq in Ea.
    rewrite (connected_congr _ _ (eq_sym Ea)) in Hon. congruence.
  - destruct (connected (app (handle ev c))) eqn:Eh; [| congruence].
    destruct (Hhas Eh) as [signer Hpool].
    unfold spawn, fetchTVL_now, fetchTVL. rewrite Hpool. cbn.
    do 2 eexists. split; [exact Hpool | reflexivity].
Qed.

Lemma connection_starts_tvl_poll_witness :
  connected (app (steps mount Scenario.almost_connected)) = false
  /\ connected (app (step (steps mount Scenario.almost_connected)
                       (Settled 0 Scenario.on_target))) = true
  /\ exists pool earlier,
       inzoStakeContract
         (app (step (steps mount Scenario.almost_connected)
                 (Settled 0 Scenario.on_target))) = Some pool
       /\ trace (step (steps mount Scenario.almost_connected)
                   (Settled 0 Scenario.on_target))
          = earlier ++ [Issue (Read (TotalStaked pool))].
Proof.
  assert (H : connected (app (steps mount Scenario.almost_connected)) = false)
    by reflexivity.
  assert (H' : connected (app (step (steps mount Scenario.almost_connected)
                                 (Settled 0 Scenario.on_target))) = true)
    by reflexivity.
  split; [exact H | split; [exact H' |]].
  exact (connection_starts_tvl_poll Scenario.almost_connected
           (Settled 0 Scenario.on_target) H H').
Defined.
End SessionInvariant.

(** ** The TVL poll *)

Section TvlPoll.
Import App.

(** [fetchTVL] never throws and touches nothing but the TVL cell.
    Without a contract it asks nothing; with one it asks for
    [totalStaked()] once, shows the converted reading when the query is
    fulfilled and keeps the old figure when it is rejected. *)
Theorem fetchTVL_reads_or_keeps :
  forall (pool : option Contract) (w : nat -> Answer) (n : nat) (s : State),
    let '(s', tr, res) := exec apply (fetchTVL pool) w n s in
    res = Ok tt
    /\ userAddress s' = userAddress s
    /\ inzoStakeContract s' = inzoStakeContract s
    /\ loading s' = loading s
    /\ status s' = status s
    /\ match pool with
       | None => tr = [] /\ tvl s' = tvl s
       | Some c =>
           match w n (Read (TotalStaked c)) with
           | Ok totalStaked =>
               tr = [Issue (Read (TotalStaked c));
                     Settle (Read (TotalStaked c)) true]
               /\ tvl s' = StakingCard.to_display totalStaked
           | Err _ =>
               tr = [Issue (Read (TotalStaked c));
                     Settle (Read (TotalStaked c)) false]
               /\ s' = s
           end
       end.
Proof.
  intros pool w n s. unfold fetchTVL.
  destruct pool as [c |]; cbn; [| repeat split].
  destruct (w n (Read (TotalStaked c))) as [v | e]; cbn; repeat split.
Qed.
End TvlPoll.

(** ** Read cycles and write actions, function by function *)

Section CardFunctions.
Import StakingCard Scope Waiting.

(** A read cycle never throws, issues nothing but read-only queries and
    can change nothing but the three balances: contracts, input fields,
    busy flag, status, timeouts and clock are as before. *)
Theorem fetchData_changes_balances_only :
  forall (addr : string) (pool token : option Contract)
         (w : nat -> Answer) (n : nat) (v : Ui),
    let '(v', tr, res) := exec apply (fetchData addr pool token) w n v in
    res = Ok tt
    /\ Forall is_read_event tr
    /\ inzoStakeContract (state v') = inzoStakeContract (state v)
    /\ inzoUSDContract (state v') = inzoUSDContract (state v)
    /\ stakeAmount (state v') = stakeAmount (state v)
    /\ withdrawAmount (state v') = withdrawAmount (state v)
    /\ loading (state v') = loading (state v)
    /\ status (state v') = status (state v)
    /\ timers v' = timers v
    /\ clock v' = clock v.
Proof.
  intros addr pool token w n v. unfold fetchData.
  explore w; repeat split; repeat constructor.
Qed.

(** Whatever the world answers, the only state-changing calls
    [handleTx] makes are those of its own action, on the card's own
    contracts, with the stake pool as the approved spender, and with the
    amount that [parseUnits] reads from the amount string. *)
Theorem handleTx_calls_match_action :
  forall (addr : string) (pool token : option Contract) (action : Action)
         (amountStr msg : string) (w : nat -> Answer) (n : nat) (v : Ui),
    let tr := snd (fst (exec apply
                          (handleTx addr pool token action amountStr msg)
                          w n v)) in
    forall r, In (Issue r) tr ->
      match r with
      | Approve tk spender amount =>
          action = stake /\ token = Some tk
          /\ spender = INZO_STAKE_ADDRESS
          /\ parseUnits amountStr 18 = Ok amount
      | Stake p amount =>
          action = stake /\ pool = Some p
          /\ parseUnits amountStr 18 = Ok amount
      | Withdraw p amount =>
          action = withdraw /\ pool = Some p
          /\ parseUnits amountStr 18 = Ok amount
      | ClaimReward p => action = claim /\ pool = Some p
      | Wait _ => True
      | Read (BalanceOf tk owner) => token = Some tk /\ owner = addr
      | Read (StakedBalance p owner) => pool = Some p /\ owner = addr
      | Read (Earned p owner) => pool = Some p /\ owner = addr
      | _ => False
      end.
Proof.
  intros addr pool token action amountStr msg w n v tr. subst tr.
  unfold handleTx, attempt, fetchData.
  destruct (invalid_amount action amountStr); cbn;
    [intros r [] |].
  destruct action; cbn [is_claim negb];
    try (destruct (parseUnits amountStr 18) as [amount | e] eqn:Eparse);
    explore w;
    intros r Hin; cbn in Hin;
    repeat (destruct Hin as [Hin | Hin];
            [ first [ discriminate Hin
                    | injection Hin as <-; cbn; repeat split; auto ] |]);
    try contradiction.
Qed.

Lemma handleTx_calls_match_action_witness :
  In (Issue (Approve Fixture.token0 INZO_STAKE_ADDRESS (5 * Fixture.e18)))
     (snd (fst (exec apply
                  (handleTx Fixture.user0 (Some Fixture.pool0)
                     (Some Fixture.token0) stake "5" "Staked!")
                  Scenario.calm 0 Fixture.ready)))
  /\ stake = stake
  /\ Some Fixture.token0 = Some Fixture.token0
  /\ INZO_STAKE_ADDRESS = INZO_STAKE_ADDRESS
  /\ parseUnits "5" 18 = Ok (5 * Fixture.e18)%Z.
Proof.
  assert (H : In (Issue (Approve Fixture.token0 INZO_STAKE_ADDRESS
                           (5 * Fixture.e18)))
                (snd (fst (exec apply
                             (handleTx Fixture.user0 (Some Fixture.pool0)
                                (Some Fixture.token0) stake "5" "Staked!")
                             Scenario.calm 0 Fixture.ready))))
    by (vm_compute; left; reflexivity).
  split; [exact H |].
  exact (handleTx_calls_match_action Fixture.user0 (Some Fixture.pool0)
           (Some Fixture.token0) stake "5" "Staked!" Scenario.calm 0%nat
           Fixture.ready _ H).
Defined.


(** An action that ends in success has cleared both input fields and
    armed the status timeout, and on a card with an address and both
    contracts the last thing it did was a complete read cycle. *)
Theorem handleTx_success_clears_and_repolls :
  forall (addr : string) (pool token : option Contract) (action : Action)
         (amountStr msg : string) (w : nat -> Answer) (n : nat) (v : Ui),
    let '(v', tr, _) :=
      exec apply (handleTx addr pool token action amountStr msg) w n v in
    status (state v') = success msg ->
    stakeAmount (state v') = ""
    /\ withdrawAmount (state v') = ""
    /\ loading (state v') = false
    /\ timers v' = timers v ++ [(clock v + 3000, SetStatus idle)]
    /\ (forall p t,
          pool = Some p -> token = Some t -> truthy addr = true ->
          exists earlier ok1 ok2 ok3,
            tr = earlier
                 ++ [Issue (Read (BalanceOf t addr));
                     Issue (Read (StakedBalance p addr));
                     Issue (Read (Earned p addr));
                     Settle (Read (BalanceOf t addr)) ok1;
                     Settle (Read (StakedBalance p addr)) ok2;
                     Settle (Read (Earned p addr)) ok3]).
Proof.
  intros addr pool token action amountStr msg w n v.
  unfold handleTx, attempt, fetchData.
  destruct (invalid_amount action amountStr); cbn;
    [discriminate |].
  destruct action; cbn [is_claim negb];
    try (destruct (parseUnits amountStr 18) as [amount | e] eqn:Eparse);
    destruct (truthy addr) eqn:Eaddr;
    explore w;
    try discriminate;
    intros _; repeat (split; [reflexivity |]);
    intros p t Hp Ht Ha; try discriminate;
    injection Hp as <-; injection Ht as <-;
    first
      [ exists []; do 3 eexists; reflexivity
      | eexists [_; _; _; _]; do 3 eexists; reflexivity
      | eexists [_; _; _; _; _; _; _; _]; do 3 eexists; reflexivity ].
Qed.

Lemma handleTx_success_clears_and_repolls_witness :
  let '(v', tr, _) :=
    exec apply
      (handleTx Fixture.user0 (Some Fixture.pool0) (Some Fixture.token0)
         withdraw "2.5" "Withdrawn!")
      Scenario.calm 0 Fixture.ready in
  status (state v') = success "Withdrawn!"
  /\ stakeAmount (state v') = ""
  /\ withdrawAmount (state v') = ""
  /\ loading (state v') = false
  /\ timers v' = [(3000%Z, SetStatus idle)]
  /\ exists earlier ok1 ok2 ok3,
       tr = earlier
            ++ [Issue (Read (BalanceOf Fixture.token0 Fixture.user0));
                Issue (Read (StakedBalance Fixture.pool0 Fixture.user0));
                Issue (Read (Earned Fixture.pool0 Fixture.user0));
                Settle (Read (BalanceOf Fixture.token0 Fixture.user0)) ok1;
                Settle (Read (StakedBalance Fixture.pool0 Fixture.user0)) ok2;
                Settle (Read (Earned Fixture.pool0 Fixture.user0)) ok3].
Proof.
  pose proof (handleTx_success_clears_and_repolls Fixture.user0
                (Some Fixture.pool0) (Some Fixture.token0) withdraw "2.5"
                "Withdrawn!" Scenario.calm 0%nat Fixture.ready) as H.
  vm_compute in H. vm_compute.
  destruct (H eq_refl) as (H1 & H2 & H3 & H4 & H5).
  split; [reflexivity |].
  split; [exact H1 |]. split; [exact H2 |]. split; [exact H3 |].
  split; [exact H4 |].
  exact (H5 _ _ eq_refl eq_refl eq_refl).
Defined.
End CardFunctions.

(** ** The status line during a write action *)

Section Phases.
Import StakingCard Waiting.


(** A fulfilled stake is parked five times: at the approval, its
    confirmation, the stake, its confirmation and the read cycle; the
    status line does not change between a submission and its
    confirmation. *)
Example stake_parks_five_times :
  map (fun parked => (status (fst parked), snd parked))
    (parked_states
       (handleTx Fixture.user0 (Some Fixture.pool0) (Some Fixture.token0)
          stake "5" "Staked!")
       Scenario.calm 0 Fixture.ready)
  = [(info "Approving...",
      [Approve Fixture.token0 INZO_STAKE_ADDRESS (5 * 10 ^ 18)]);
     (info "Approving...", [Wait 0%nat]);
     (info "Staking...", [Stake Fixture.pool0 (5 * 10 ^ 18)]);
     (info "Staking...", [Wait 0%nat]);
     (success "Staked!",
      [Read (BalanceOf Fixture.token0 Fixture.user0);
       Read (StakedBalance Fixture.pool0 Fixture.user0);
       Read (Earned Fixture.pool0 Fixture.user0)])].
Proof. vm_compute. reflexivity. Qed.
End Phases.

(** ** Amounts that pass validation *)

Section ValidAmounts.
Import StakingCard.
Local Open Scope Z_scope.

Lemma take_digits_range (s : string) :
  forall ds r, take_digits s = (ds, r) -> Forall (fun d => 0 <= d <= 9) ds.
Proof.
  induction s as [| c s IH]; intros ds r H; cbn in H.
  - injection H as <- <-. constructor.
  - unfold digit_of in H.
    destruct ((48 <=? Z.of_N (N_of_ascii c))
              && (Z.of_N (N_of_ascii c) <=? 57)) eqn:E.
    + destruct (take_digits s) as [ds' r'] eqn:Et.
      injection H as <- <-. constructor; [| eapply IH; reflexivity].
      apply andb_true_iff in E. destruct E as [E1 E2].
      apply Z.leb_le in E1, E2. lia.
    + injection H as <- <-. constructor.
Qed.

Lemma take_digits_nil (s : string) :
  forall r, take_digits s = ([], r) -> r = s.
Proof.
  destruct s as [| c s]; intros r H; cbn in H.
  - injection H as <-. reflexivity.
  - destruct (digit_of c); [| injection H as <-; reflexivity].
    destruct (take_digits s). discriminate H.
Qed.

Lemma take_digits_cons (s : string) :
  forall d ds r,
    take_digits s = (d :: ds, r) ->
    exists c s', s = String c s' /\ digit_of c = Some d.
Proof.
  destruct s as [| c s]; intros d ds r H; cbn in H; [discriminate |].
  destruct (digit_of c) as [d' |] eqn:E; [| discriminate].
  destruct (take_digits s). injection H as <- _ _. eauto.
Qed.

Lemma fold_digits_nonneg (ds : list Z) :
  forall acc, 0 <= acc -> Forall (fun d => 0 <= d <= 9) ds ->
    acc <= fold_left (fun acc d => 10 * acc + d) ds acc.
Proof.
  induction ds as [| d ds IH]; intros acc Hacc Hds; cbn [fold_left]; [lia |].
  inversion Hds as [| ? ? Hd Hrest]; subst.
  specialize (IH (10 * acc + d) ltac:(lia) Hrest). lia.
Qed.

Lemma fold_digits_zero (ds : list Z) :
  forall acc, 0 <= acc -> Forall (fun d => 0 <= d <= 9) ds ->
    fold_left (fun acc d => 10 * acc + d) ds acc = 0 ->
    acc = 0 /\ Forall (fun d => d = 0) ds.
Proof.
  induction ds as [| d ds IH]; intros acc Hacc Hds H; cbn [fold_left] in H.
  - split; [exact H | constructor].
  - inversion Hds as [| ? ? Hd Hrest]; subst.
    destruct (IH (10 * acc + d) ltac:(lia) Hrest H) as [H0 Hz].
    split; [lia |]. constructor; [lia | exact Hz].
Qed.

Lemma fold_digits_zeros (ds : list Z) :
  Forall (fun d => d = 0) ds ->
  fold_left (fun acc d => 10 * acc + d) ds 0 = 0.
Proof.
  induction 1 as [| d ds Hd _ IH]; cbn [fold_left]; [reflexivity |].
  subst d. exact IH.
Qed.

(** The sign of a number that [of_decimal] builds is the one asked
    for. *)
Lemma round_ratio_negative (n d : Z) :
  le (round_ratio true n d) pos_zero = true.
Proof.
  unfold round_ratio.
  destruct (scaled_div n d _) as [[q1 ?] ?].
  destruct (scaled_div n d _) as [[q r2] den].
  destruct (if _ =? _ then _ else _) as [m ex].
  destruct (m =? 0); [reflexivity |].
  destruct (971 <? ex); reflexivity.
Qed.

Lemma of_decimal_negative (m e : Z) :
  le (of_decimal true m e) pos_zero = true.
Proof.
  unfold of_decimal. destruct (m =? 0); [reflexivity |].
  destruct (0 <=? e); apply round_ratio_negative.
Qed.

Lemma of_decimal_zero (neg : bool) (e : Z) :
  le (of_decimal neg 0 e) pos_zero = true.
Proof. destruct neg; reflexivity. Qed.

Lemma digit_head (c : ascii) (s : string) (d : Z) :
  digit_of c = Some d ->
  parseFloat (String c s) = unsigned_literal false (String c s)
  /\ prefix "Infinity" (String c s) = false.
Proof.
  intros Hd.
  destruct c as [[] [] [] [] [] [] [] []]; cbn in Hd; try discriminate Hd;
    split; reflexivity.
Qed.

Lemma sign_split (s : string) :
  (exists body, s = String "-" body)
  \/ match s with
     | String "-" r => (true, r)
     | _ => (false, s)
     end = (false, s).
Proof.
  destruct s as [| c s]; [right; reflexivity |].
  destruct c as [[] [] [] [] [] [] [] []];
    first [right; reflexivity | left; eexists; reflexivity].
Qed.

(** What follows the integer digits of an accepted amount: nothing, or a
    point and digits up to the end. *)
Lemma fraction_split (r1 : string) (frac : list Z) (r2 : string) :
  match r1 with
  | String "." r => take_digits r
  | _ => ([], r1)
  end = (frac, r2) ->
  truthy r2 = false ->
  (r1 = "" /\ frac = [])
  \/ exists r, r1 = String "." r /\ take_digits r = (frac, "").
Proof.
  intros H Hr2.
  assert (r2 = "") by (destruct r2; [reflexivity | discriminate]). subst r2.
  destruct r1 as [| c r]; [injection H as <-; left; split; reflexivity |].
  destruct c as [[] [] [] [] [] [] [] []];
    first [ discriminate H | right; eexists; split; [reflexivity | exact H] ].
Qed.

(** The number [parseFloat] reads from the unsigned part of an accepted
    amount. *)
Lemma unsigned_amount (neg : bool) (body : string) (whole frac : list Z)
    (r1 : string) :
  take_digits body = (whole, r1) ->
  (r1 = "" /\ frac = [])
  \/ (exists r, r1 = String "." r /\ take_digits r = (frac, "")) ->
  (List.length whole + List.length frac)%nat <> 0%nat ->
  prefix "Infinity" body = false ->
  unsigned_literal neg body
  = of_decimal neg (digits_value (whole ++ frac))
      (- Z.of_nat (List.length frac)).
Proof.
  intros Hw Hfrac Hlen Hinf. unfold unsigned_literal.
  rewrite Hinf, Hw.
  destruct Hfrac as [[-> ->] | (r & -> & Hr)].
  - rewrite app_nil_r. cbn.
    destruct whole; [cbn in Hlen; lia | reflexivity].
  - rewrite Hr. cbn [exponent_part].
    destruct whole, frac; try reflexivity. cbn in Hlen. lia.
Qed.

Lemma amount_without_infinity (body : string) (whole frac : list Z)
    (r1 : string) :
  take_digits body = (whole, r1) ->
  (r1 = "" /\ frac = [])
  \/ (exists r, r1 = String "." r /\ take_digits r = (frac, "")) ->
  prefix "Infinity" body = false.
Proof.
  intros Hw Hfrac. destruct whole as [| d whole].
  - apply take_digits_nil in Hw. subst r1.
    destruct Hfrac as [[-> _] | (r & -> & _)]; reflexivity.
  - destruct (take_digits_cons _ _ _ _ Hw) as (c & s' & -> & Hd).
    apply (digit_head c s' d Hd).
Qed.

Lemma Forall_prefix {A} (P : A -> Prop) (n : nat) (l : list A) :
  Forall P l -> Forall P (firstn n l).
Proof.
  intros H. rewrite <- (firstn_skipn n l) in H.
  apply Forall_app in H. apply H.
Qed.

Lemma all_zero_digits (whole frac : list Z) :
  Forall (fun d => 0 <= d <= 9) whole ->
  Forall (fun d => 0 <= d <= 9) frac ->
  existsb (fun d => negb (d =? 0)) (skipn 18 frac) = false ->
  digits_value (whole ++ firstn 18 (frac ++ repeat 0 18)) <= 0 ->
  digits_value (whole ++ frac) = 0.
Proof.
  intros Hw Hf Hskip Hv.
  assert (Hpad : Forall (fun d => 0 <= d <= 9)
                   (whole ++ firstn 18 (frac ++ repeat 0 18))).
  { apply Forall_app. split; [exact Hw |].
    apply Forall_prefix, Forall_app. split; [exact Hf |].
    apply Forall_forall. intros d Hd. apply repeat_spec in Hd. lia. }
  unfold digits_value in *.
  pose proof (fold_digits_nonneg _ 0 ltac:(lia) Hpad) as Hge.
  destruct (fold_digits_zero _ 0 ltac:(lia) Hpad ltac:(lia)) as [_ Hz].
  apply Forall_app in Hz. destruct Hz as [Hzw Hzp].
  apply fold_digits_zeros, Forall_app. split; [exact Hzw |].
  rewrite <- (firstn_skipn 18 frac). apply Forall_app. split.
  - rewrite firstn_app in Hzp. apply Forall_app in Hzp. apply Hzp.
  - apply Forall_forall. intros d Hd.
    destruct (d =? 0) eqn:E; [apply Z.eqb_eq in E; exact E |].
    assert (existsb (fun d => negb (d =? 0)) (skipn 18 frac) = true).
    { apply existsb_exists. exists d. rewrite E. auto. }
    congruence.
Qed.

(** An amount string that [parseUnits] accepts and reads as zero or as
    a negative amount parses, with [parseFloat], to a number at or below
    zero: the guard of [handleTx] stops it. *)
Lemma nonpositive_amount_is_invalid (s : string) (a : Z) :
  parseUnits s 18 = Ok a -> a <= 0 ->
  le (parseFloat s) pos_zero = true.
Proof.
  unfold parseUnits. intros H Ha.
  destruct (sign_split s) as [[body ->] | Hplain].
  - destruct (take_digits body) as [whole r1] eqn:Hw.
    destruct (match r1 with String "." r => take_digits r | _ => ([], r1) end)
      as [frac r2] eqn:Hf.
    destruct (truthy r2) eqn:Hr2; [discriminate H |].
    destruct (List.length whole + List.length frac =? 0)%nat eqn:Hlen;
      [discriminate H |].
    apply Nat.eqb_neq in Hlen.
    pose proof (fraction_split _ _ _ Hf Hr2) as Hfrac.
    change (parseFloat (String "-" body)) with (unsigned_literal true body).
    rewrite (unsigned_amount true body whole frac r1 Hw Hfrac Hlen
               (amount_without_infinity _ _ _ _ Hw Hfrac)).
    apply of_decimal_negative.
  - rewrite Hplain in H.
    destruct (take_digits s) as [whole r1] eqn:Hw.
    destruct (match r1 with String "." r => take_digits r | _ => ([], r1) end)
      as [frac r2] eqn:Hf.
    destruct (truthy r2) eqn:Hr2; [discriminate H |].
    destruct (List.length whole + List.length frac =? 0)%nat eqn:Hlen;
      [discriminate H |].
    apply Nat.eqb_neq in Hlen.
    destruct (existsb _ (skipn 18 frac)) eqn:Hskip; [discriminate H |].
    cbv beta iota zeta delta [orb] in H.
    destruct (_ && _) in H; [| discriminate H]. injection H as H.
    pose proof (fraction_split _ _ _ Hf Hr2) as Hfrac.
    assert (Hplainfloat : parseFloat s = unsigned_literal false s).
    { destruct whole as [| d whole'].
      - pose proof (take_digits_nil _ _ Hw). subst r1.
        destruct Hfrac as [[-> ->] | (r & -> & _)];
          [cbn in Hlen; lia | reflexivity].
      - destruct (take_digits_cons _ _ _ _ Hw) as (c & s' & -> & Hd).
        apply (digit_head c s' d Hd). }
    rewrite Hplainfloat.
    rewrite (unsigned_amount false s whole frac r1 Hw Hfrac Hlen
               (amount_without_infinity _ _ _ _ Hw Hfrac)).
    assert (Hfr : Forall (fun d => 0 <= d <= 9) frac).
    { destruct Hfrac as [[_ ->] | (r & _ & Hr)]; [constructor |].
      eapply take_digits_range; eauto. }
    change (digits_value (whole ++ firstn 18 (frac ++ repeat 0 18)) = a)
      in H.
    rewrite (all_zero_digits whole frac
               (take_digits_range _ _ _ Hw) Hfr Hskip ltac:(lia)).
    apply of_decimal_zero.
Qed.

(** Every amount [handleTx] hands to [approve], [stake] or [withdraw]
    is strictly positive: a string that [parseUnits] reads as zero or
    less never gets past the guard. *)
Theorem handleTx_submits_positive_amounts :
  forall (addr : string) (pool token : option Contract) (action : Action)
         (amountStr msg : string) (w : nat -> Answer) (n : nat) (v : Ui),
    let tr := snd (fst (exec apply
                          (handleTx addr pool token action amountStr msg)
                          w n v)) in
    forall r, In (Issue r) tr ->
      match r with
      | Approve _ _ amount => 0 < amount
      | Stake _ amount => 0 < amount
      | Withdraw _ amount => 0 < amount
      | _ => True
      end.
Proof.
  intros addr pool token action amountStr msg w n v tr. subst tr.
  unfold handleTx, attempt, fetchData.
  destruct (invalid_amount action amountStr) eqn:Einv; cbn;
    [intros r [] |].
  assert (Hpos : forall a, action <> claim ->
                           parseUnits amountStr 18 = Ok a -> 0 < a).
  { intros a Hact Hparse.
    destruct (Z_lt_le_dec 0 a) as [Hlt | Hle]; [exact Hlt |].
    pose proof (nonpositive_amount_is_invalid _ _ Hparse Hle) as Hfloat.
    unfold invalid_amount in Einv. rewrite Hfloat, orb_true_r in Einv.
    destruct action; try contradiction; discriminate Einv. }
  destruct action; cbn [is_claim negb];
    try (destruct (parseUnits amountStr 18) as [amount | e] eqn:Eparse;
         [specialize (Hpos amount ltac:(discriminate) eq_refl) |]);
    explore w;
    intros r Hin; cbn in Hin;
    repeat (destruct Hin as [Hin | Hin];
            [ first [ discriminate Hin
                    | injection Hin as <-; cbn; first [exact Hpos | exact I] ]
            |]);
    try contradiction.
Qed.

Lemma handleTx_submits_positive_amounts_witness :
  In (Issue (Withdraw Fixture.pool0 (25 * 10 ^ 17)))
     (snd (fst (exec apply
                  (handleTx Fixture.user0 (Some Fixture.pool0)
                     (Some Fixture.token0) withdraw "2.5" "Withdrawn!")
                  Scenario.calm 0 Fixture.ready)))
  /\ 0 < 25 * 10 ^ 17.
Proof.
  assert (H : In (Issue (Withdraw Fixture.pool0 (25 * 10 ^ 17)))
                (snd (fst (exec apply
                             (handleTx Fixture.user0 (Some Fixture.pool0)
                                (Some Fixture.token0) withdraw "2.5"
                                "Withdrawn!")
                             Scenario.calm 0 Fixture.ready))))
    by (vm_compute; left; reflexivity).
  split; [exact H |].
  exact (handleTx_submits_positive_amounts Fixture.user0
           (Some Fixture.pool0) (Some Fixture.token0) withdraw "2.5"
           "Withdrawn!" Scenario.calm 0%nat Fixture.ready _ H).
Defined.
End ValidAmounts.

(** ** The card stays within its bounds *)

Section CardScope.
Import StakingCard Scope.
Local Open Scope Z_scope.

Lemma Within_bind {A B} owner (p : Prog Effect A) (f : A -> Prog Effect B) :
  Within owner p -> (forall a, Within owner (f a)) -> Within owner (bind p f).
Proof. intros Hp Hf. induction Hp; cbn; try constructor; auto. Qed.

Lemma Within_try_catch {A} owner (p : Prog Effect A) h :
  Within owner p -> (forall e, Within owner (h e)) ->
  Within owner (try_catch p h).
Proof. intros Hp Hh. induction Hp; cbn; try constructor; auto. Qed.

Lemma Within_await owner r :
  allowed_request owner r -> Within owner (await r : Prog Effect (resp r)).
Proof. intros Hr. constructor; [exact Hr |]. intros [x | e]; constructor. Qed.

Lemma Within_set owner u :
  allowed_update u -> Within owner (Update u (Ret tt) : Prog Effect unit).
Proof. intros Hu. constructor; [exact Hu | constructor]. Qed.

Lemma fetchData_within owner pool token :
  stake_scoped pool -> usd_scoped token ->
  Within owner (fetchData owner pool token).
Proof.
  intros Hp Ht. unfold fetchData.
  destruct (truthy owner), pool as [p |], token as [t |];
    try solve [constructor].
  specialize (Hp p eq_refl). specialize (Ht t eq_refl).
  apply Within_try_catch; [| intros; constructor].
  apply Within_bind.
  - constructor; [repeat constructor; assumption |].
    intros x. destruct (promise_all x); constructor.
  - intros [| ? [| ? [| ? [| ? ?]]]]; try constructor; cbn;
      repeat (constructor; try exact I).
Qed.

Lemma init_within owner te : Within owner (init te).
Proof.
  unfold init. destruct te; [| constructor].
  apply Within_bind; [apply Within_await; exact I |].
  intros s. cbn. repeat (constructor; try reflexivity).
Qed.

Lemma handleTx_within owner pool token action amountStr msg :
  stake_scoped pool -> usd_scoped token ->
  Within owner (handleTx owner pool token action amountStr msg).
Proof.
  intros Hp Ht. unfold handleTx.
  apply Within_bind; [apply Within_set; exact I | intros _].
  apply Within_bind; [apply Within_set; exact I | intros _].
  apply Within_bind; [| intros _; apply Within_set; exact I].
  apply Within_try_catch; [| intros e; apply Within_set; exact I].
  unfold attempt.
  apply Within_bind; [destruct (invalid_amount _ _); constructor | intros _].
  apply Within_bind.
  { destruct (negb (is_claim action)); [| constructor].
    destruct (parseUnits amountStr 18); constructor. }
  intros amount. apply Within_bind.
  - destruct action, pool as [p |], token as [t |]; cbn;
      try specialize (Hp _ eq_refl); try specialize (Ht _ eq_refl);
      repeat first
        [ apply Within_Ret | apply Within_Throw
        | apply Within_Update; [exact I |]
        | apply Within_Await; [cbn; auto | intros [? | ?]; cbn] ].
  - intros _.
    apply Within_bind; [apply Within_set; exact I | intros _].
    apply Within_bind; [apply Within_set; split; reflexivity | intros _].
    apply Within_bind; [apply Within_set; exact I | intros _].
    apply Within_bind; [apply Within_set; exact I | intros _].
    apply fetchData_within; assumption.
Qed.

Lemma apply_scoped (u : Effect) (v : Ui) :
  allowed_update u -> ui_scoped v -> ui_scoped (apply u v).
Proof.
  intros Hu (Hs & Hd & Ht).
  destruct u; cbn in *; unfold ui_scoped; cbn;
    try (split; [exact Hs | split; [exact Hd | exact Ht]]).
  - split; [| split; [exact Hd | exact Ht]].
    intros k Hk. injection Hk as <-. exact Hu.
  - split; [exact Hs | split; [| exact Ht]].
    intros k Hk. injection Hk as <-. exact Hu.
  - split; [exact Hs | split; [exact Hd |]].
    apply Forall_app. split; [exact Ht |].
    destruct Hu as [-> ->]. repeat constructor. cbn. lia.
Qed.

Lemma run_within owner (p : Prog Effect unit) :
  Within owner p ->
  forall v v' out,
    ui_scoped v ->
    run apply p v = (v', out) ->
    ui_scoped v'
    /\ match out with
       | Parked pend =>
           Forall (allowed_request owner) (outstanding pend)
           /\ forall a, Within owner (resume pend a)
       | Done _ => True
       end.
Proof.
  induction 1 as [a | e | u k Hu Hk IH | r k Hr Hk _ | qs k Hqs Hk _];
    intros v v' out Hv Hrun; cbn in Hrun.
  - injection Hrun as <- <-. auto.
  - injection Hrun as <- <-. auto.
  - eapply IH; [| exact Hrun]. apply apply_scoped; assumption.
  - injection Hrun as <- <-. split; [exact Hv |]. split.
    + repeat constructor. exact Hr.
    + intros a. apply Hk.
  - injection Hrun as <- <-. split; [exact Hv |]. split.
    + cbn. apply Forall_map. exact Hqs.
    + intros a. apply Hk.
Qed.

Lemma spawn_scoped (o : Origin) (p : Prog Effect unit) (c : Card) :
  Within (userAddress c) p -> card_scoped c -> card_scoped (spawn o p c).
Proof.
  intros Hp (Hui & Htasks & Htrace). unfold spawn.
  destruct (run apply p (ui c)) as [v out] eqn:Hrun.
  destruct (run_within _ p Hp _ _ _ Hui Hrun) as (Hv & Hout).
  destruct out as [res | pend]; unfold card_scoped; cbn.
  - auto.
  - destruct Hout as [Hreq Hk].
    split; [exact Hv |]. split.
    + apply Forall_app. split; [exact Htasks |].
      repeat constructor; assumption.
    + apply Forall_app. split; [exact Htrace |].
      apply Forall_map. exact Hreq.
Qed.

(** Time passing fires status resets and nothing else. *)
Lemma elapse_scoped (ms : Z) (v : Ui) :
  ui_scoped v ->
  ui_scoped (elapse ms v)
  /\ (state (elapse ms v) = state v
      \/ state (elapse ms v) = update (SetStatus idle) (state v)).
Proof.
  intros (Hs & Hd & Ht). unfold elapse.
  destruct (partition _ (timers v)) as [due later] eqn:Hpart.
  assert (Hdue : Forall (fun d => snd d = SetStatus idle) due).
  { apply Forall_forall. intros d Hin.
    rewrite Forall_forall in Ht. apply Ht.
    apply (elements_in_partition _ _ Hpart). auto. }
  assert (Hlater : Forall (fun d => snd d = SetStatus idle
                                    /\ fst d <= clock v + Z.max 0 ms + 3000)
                     later).
  { apply Forall_forall. intros d Hin.
    rewrite Forall_forall in Ht.
    destruct (Ht d) as [H1 H2];
      [apply (elements_in_partition _ _ Hpart); auto |].
    split; [exact H1 | lia]. }
  set (w0 := {| state := state v; timers := later;
                clock := clock v + Z.max 0 ms |}).
  assert (H0 : ui_scoped w0
               /\ (state w0 = state v
                   \/ state w0 = update (SetStatus idle) (state v))).
  { split; [| left; reflexivity].
    split; [exact Hs | split; [exact Hd | exact Hlater]]. }
  clearbody w0. clear Hpart Hlater Ht.
  revert w0 H0. induction Hdue as [| d due Hcb _ IH]; intros w0 H0; cbn.
  - exact H0.
  - apply IH. destruct H0 as [Hw0 Hst]. rewrite Hcb. split.
    + apply apply_scoped; [exact I | exact Hw0].
    + right. cbn. destruct Hst as [-> | ->]; reflexivity.
Qed.

Lemma Forall_remove_task (P : Task -> Prop) (l : list Task) :
  Forall P l -> forall i, Forall P (remove_nth i l).
Proof.
  induction 1 as [| x l Hx Hl IH]; intros [| i]; cbn; auto.
Qed.

Lemma handle_scoped (ev : UiEvent) (c : Card) :
  card_scoped c -> card_scoped (handle ev c).
Proof.
  intros Hc. pose proof Hc as ((Hs & Hd & Ht) & Htasks & Htrace).
  destruct ev as [s | s | | | | i a | | ms]; cbn [handle].
  - split; [| split; assumption]. split; [exact Hs | split; assumption].
  - split; [| split; assumption]. split; [exact Hs | split; assumption].
  - destruct (stake_disabled _); [exact Hc |].
    apply spawn_scoped;
      [unfold handleTx_now; apply handleTx_within; assumption | exact Hc].
  - destruct (withdraw_disabled _); [exact Hc |].
    apply spawn_scoped;
      [unfold handleTx_now; apply handleTx_within; assumption | exact Hc].
  - destruct (claim_disabled _); [exact Hc |].
    apply spawn_scoped;
      [unfold handleTx_now; apply handleTx_within; assumption | exact Hc].
  - destruct (nth_error (tasks c) i) as [t |] eqn:Hnth; [| exact Hc].
    assert (Htask : task_scoped (userAddress c) t).
    { rewrite Forall_forall in Htasks. apply Htasks.
      eapply nth_error_In; eauto. }
    destruct Htask as [Hreq Hk].
    apply (spawn_scoped (origin t) (resume (pending t) a)
             {| userAddress := userAddress c; ui := ui c;
                tasks := remove_nth i (tasks c);
                trace := trace c ++ settled (pending t) a |});
      [apply Hk |].
    split; [split; [exact Hs | split; assumption] |]. split.
    + apply Forall_remove_task. exact Htasks.
    + cbn. apply Forall_app. split; [exact Htrace |].
      unfold settled. apply Forall_map. exact Hreq.
  - apply spawn_scoped;
      [unfold fetchData_now; apply fetchData_within; assumption | exact Hc].
  - destruct (elapse_scoped ms (ui c) (conj Hs (conj Hd Ht))) as [Hv _].
    split; [exact Hv | split; assumption].
Qed.

Lemma step_scoped (c : Card) (ev : UiEvent) :
  card_scoped c -> card_scoped (step c ev).
Proof.
  intros Hc. unfold step, rerender.
  pose proof (handle_scoped ev c Hc) as H.
  destruct (_ && _); [exact H |].
  apply spawn_scoped; [| exact H].
  destruct H as ((Hs & Hd & _) & _).
  unfold fetchData_now. apply fetchData_within; assumption.
Qed.

Lemma mount_scoped (addr : string) (te : bool) : card_scoped (mount addr te).
Proof.
  unfold mount.
  set (c0 := {| userAddress := addr;
                ui := {| state := initial_state; timers := []; clock := 0 |};
                tasks := []; trace := [] |}).
  assert (H0 : card_scoped c0).
  { split; [| split; constructor].
    split; [intros k Hk; discriminate Hk |].
    split; [intros k Hk; discriminate Hk | constructor]. }
  pose proof (spawn_scoped Setup (init te) c0 (init_within addr te) H0) as H1.
  apply spawn_scoped; [| exact H1].
  destruct H1 as ((Hs & Hd & _) & _).
  apply (fetchData_within (userAddress (spawn Setup (init te) c0)));
    assumption.
Qed.

Lemma spawn_userAddress (o : Origin) (p : Prog Effect unit) (c : Card) :
  userAddress (spawn o p c) = userAddress c.
Proof.
  unfold spawn. destruct (run apply p (ui c)) as [v [res | pend]];
    reflexivity.
Qed.

Lemma step_userAddress (c : Card) (ev : UiEvent) :
  userAddress (step c ev) = userAddress c.
Proof.
  assert (H : userAddress (handle ev c) = userAddress c).
  { destruct ev; cbn [handle]; try reflexivity;
      try (match goal with |- context [if ?b then _ else _] => destruct b end;
           [reflexivity | apply spawn_userAddress]).
    - destruct (nth_error (tasks c) i); [| reflexivity].
      rewrite spawn_userAddress. reflexivity.
    - apply spawn_userAddress. }
  unfold step, rerender. destruct (_ && _); [exact H |].
  rewrite spawn_userAddress. exact H.
Qed.

Lemma steps_scoped (evs : list UiEvent) :
  forall c,
    card_scoped c ->
    card_scoped (steps c evs) /\ userAddress (steps c evs) = userAddress c.
Proof.
  induction evs as [| ev evs IH]; intros c Hc; cbn; [auto |].
  destruct (IH (step c ev) (step_scoped c ev Hc)) as [H1 H2].
  split; [exact H1 |]. unfold steps in H2. rewrite H2.
  apply step_userAddress.
Qed.

Lemma mount_userAddress (addr : string) (te : bool) :
  userAddress (mount addr te) = addr.
Proof. unfold mount. rewrite !spawn_userAddress. reflexivity. Qed.

(** Whatever happens to a mounted card, everything it ever asks of the
    outside world is the signer, a confirmation, a write on one of the
    two configured contracts with the stake pool as approved spender,
    or a read about its own user; and its contract cells, once set,
    hold the two constant addresses. *)
Theorem card_asks_only_its_contracts :
  forall (addr : string) (talismanEth : bool) (evs : list UiEvent),
    let c := steps (mount addr talismanEth) evs in
    Forall (allowed_event addr) (trace c)
    /\ stake_scoped (inzoStakeContract (state (ui c)))
    /\ usd_scoped (inzoUSDContract (state (ui c))).
Proof.
  intros addr te evs c.
  destruct (steps_scoped evs _ (mount_scoped addr te))
    as (((Hs & Hd & _) & _ & Htrace) & Haddr).
  fold c in Hs, Hd, Htrace, Haddr.
  rewrite Haddr, mount_userAddress in Htrace. auto.
Qed.

(** On any card, every pending timeout is the status reset, due within
    3 s from now; so time passing leaves the card as it is or resets
    the status to idle, and never touches balances, input fields,
    contracts, the busy flag, the parked functions or the trace. *)
Theorem card_timeouts_only_reset_status :
  forall (addr : string) (talismanEth : bool) (evs : list UiEvent) (ms : Z),
    let c := steps (mount addr talismanEth) evs in
    let c' := step c (Elapse ms) in
    Forall (fun d => snd d = SetStatus idle
                     /\ fst d <= clock (ui c) + 3000) (timers (ui c))
    /\ (state (ui c') = state (ui c)
        \/ state (ui c') = update (SetStatus idle) (state (ui c)))
    /\ tasks c' = tasks c
    /\ trace c' = trace c.
Proof.
  intros addr te evs ms c c'.
  destruct (steps_scoped evs _ (mount_scoped addr te))
    as ((Hui & _ & _) & _).
  fold c in Hui.
  destruct (elapse_scoped ms (ui c) Hui) as [_ Hst].
  destruct Hui as (_ & _ & Ht).
  split; [exact Ht |].
  subst c'. unfold step, rerender. cbn [handle with_ui ui].
  assert (E : contract_eqb (inzoStakeContract (state (ui c)))
                (inzoStakeContract (state (elapse ms (ui c))))
              && contract_eqb (inzoUSDContract (state (ui c)))
                   (inzoUSDContract (state (elapse ms (ui c)))) = true).
  { destruct Hst as [-> | ->]; cbn; rewrite !contract_eqb_refl;
      reflexivity. }
  rewrite E. cbn. auto.
Qed.

Lemma handleTx_without_contracts addr action amountStr msg (v : Ui) :
  exists v',
    run apply (handleTx addr None None action amountStr msg) v
    = (v', Done (Ok tt))
    /\ timers v' = timers v
    /\ inzoStakeContract (state v') = inzoStakeContract (state v)
    /\ inzoUSDContract (state v') = inzoUSDContract (state v)
    /\ inzoUSDBalance (state v') = inzoUSDBalance (state v)
    /\ stakedBalance (state v') = stakedBalance (state v)
    /\ earnedRewards (state v') = earnedRewards (state v)
    /\ type (status (state v')) = "error"%string.
Proof.
  unfold handleTx, attempt.
  destruct (invalid_amount action amountStr); cbn;
    [eexists; repeat split |].
  destruct action; cbn [is_claim negb];
    try destruct (parseUnits amountStr 18); cbn;
    eexists; repeat split.
Qed.

Lemma click_inert (c : Card) action amountStr msg :
  inert c ->
  inert (spawn WriteAction (handleTx_now c action amountStr msg) c).
Proof.
  intros (Htasks & Htrace & Htimers & Hs & Hd & Hb1 & Hb2 & Hb3).
  unfold handleTx_now, spawn. rewrite Hs, Hd.
  destruct (handleTx_without_contracts (userAddress c) action amountStr msg
              (ui c)) as (v' & -> & Ht & H1 & H2 & H3 & H4 & H5 & _).
  unfold inert. cbn. rewrite Ht, H1, H2, H3, H4, H5. repeat split; auto.
Qed.

Lemma step_inert (c : Card) (ev : UiEvent) : inert c -> inert (step c ev).
Proof.
  intros Hc.
  pose proof Hc as (Htasks & Htrace & Htimers & Hs & Hd & Hb1 & Hb2 & Hb3).
  assert (H : inert (handle ev c)).
  { destruct ev as [s | s | | | | i a | | ms]; cbn [handle].
    - unfold inert. cbn. repeat split; auto.
    - unfold inert. cbn. repeat split; auto.
    - destruct (stake_disabled _); [exact Hc | apply click_inert, Hc].
    - destruct (withdraw_disabled _); [exact Hc | apply click_inert, Hc].
    - destruct (claim_disabled _); [exact Hc | apply click_inert, Hc].
    - rewrite Htasks. destruct i; exact Hc.
    - unfold fetchData_now, fetchData, spawn. rewrite Hs.
      destruct (truthy _); exact Hc.
    - unfold inert, elapse. cbn. rewrite Htimers. cbn. repeat split; auto. }
  unfold step, rerender.
  pose proof H as (_ & _ & _ & Hs' & Hd' & _).
  rewrite Hs, Hd, Hs', Hd'. exact H.
Qed.

(** A card mounted where [window.talismanEth] is missing never asks
    anything of anybody, whatever the user does: it never gets its
    contracts, whatever a button press starts ends at once without
    parking at an [await], and the three balances stay at zero. *)
Theorem card_without_provider_is_inert :
  forall (addr : string) (evs : list UiEvent),
    let c := steps (mount addr false) evs in
    trace c = [] /\ tasks c = []
    /\ inzoStakeContract (state (ui c)) = None
    /\ inzoUSDContract (state (ui c)) = None
    /\ inzoUSDBalance (state (ui c)) = pos_zero
    /\ stakedBalance (state (ui c)) = pos_zero
    /\ earnedRewards (state (ui c)) = pos_zero.
Proof.
  intros addr evs c.
  assert (H : inert c).
  { subst c.
    assert (H0 : inert (mount addr false)).
    { unfold mount, init, fetchData_now, fetchData, spawn. cbn.
      destruct (truthy addr); repeat split. }
    revert H0. generalize (mount addr false).
    induction evs as [| ev evs IH]; intros c0 H0; cbn; [exact H0 |].
    apply (IH (step c0 ev) (step_inert _ _ H0)). }
  destruct H as (H1 & H2 & _ & H3 & H4 & H5 & H6 & H7).
  repeat split; assumption.
Qed.
End CardScope.

(** ** The display slot over its whole life *)

Section SlotLife.
Import AnimatedNumber.
Local Open Scope Q_scope.

Variable flavour : Flavour.
Variable easeOut : Q -> Q.

(** At every moment of a mounted slot's life, whatever renders and
    frames it went through, at most one animation writes to the span
    and it is the one the pending cleanup will stop; the ref holds the
    value of the last render; the span is attached. *)
Theorem slot_has_one_writer_at_most :
  forall (v0 : Q) (p0 : option nat) (evs : list SlotEvent),
    let s := play flavour easeOut (mount flavour v0 p0) evs in
    (List.length (running s) <= 1)%nat
    /\ (forall a, In a (running s) -> controls s = Some (anim_id a))
    /\ prevValue s == value s
    /\ node s <> None.
Proof.
  intros v0 p0 evs s.
  destruct (play_slot_ok flavour easeOut evs _ (mount_slot_ok flavour v0 p0))
    as (Hn & Hprev & Hw & _).
  fold s in Hn, Hprev, Hw.
  split; [| split; [| split; [exact Hprev | exact Hn]]].
  - destruct Hw as [-> | (a & -> & _)]; cbn; lia.
  - intros a Ha. destruct Hw as [Hnil | (b & Hb & Hc)].
    + rewrite Hnil in Ha. destruct Ha.
    + rewrite Hb in Ha. destruct Ha as [<- | []]. exact Hc.
Qed.

(** Removing the component stops its tween: nothing is left running,
    the span is gone, and later animation frames write nothing. *)
Theorem unmount_stops_the_tween :
  forall (v0 : Q) (p0 : option nat) (evs : list SlotEvent) (t : Q),
    let s := play flavour easeOut (mount flavour v0 p0) evs in
    running (unmount s) = []
    /\ node (unmount s) = None
    /\ running (frame flavour easeOut t (unmount s)) = []
    /\ node (frame flavour easeOut t (unmount s)) = None.
Proof.
  intros v0 p0 evs t s.
  destruct (play_slot_ok flavour easeOut evs _ (mount_slot_ok flavour v0 p0))
    as (_ & _ & Hw & _).
  fold s in Hw.
  pose proof (cleanup_running_nil s Hw) as Hr.
  unfold frame, unmount. cbn. rewrite Hr. cbn. repeat split.
Qed.

End SlotLife.

Section SlotLifeExample.
Import AnimatedNumber.
Local Open Scope Q_scope.

Lemma slot_has_one_writer_at_most_witness :
  match running (play dashboard Tween.quadOut (mount dashboard 0 None)
                   Fixture.halfway) with
  | a :: _ =>
      In a (running (play dashboard Tween.quadOut (mount dashboard 0 None)
                       Fixture.halfway))
      /\ controls (play dashboard Tween.quadOut (mount dashboard 0 None)
                     Fixture.halfway) = Some (anim_id a)
  | [] => False
  end.
Proof.
  pose proof (proj1 (proj2 (slot_has_one_writer_at_most dashboard
                              Tween.quadOut 0 None Fixture.halfway)))
    as H.
  cbv zeta in H.
  destruct (running (play dashboard Tween.quadOut (mount dashboard 0 None)
                       Fixture.halfway)) as [| a l] eqn:E;
    [vm_compute in E; discriminate |].
  split; [left; reflexivity |].
  exact (H a (or_introl eq_refl)).
Defined.

End SlotLifeExample.
